(** * Huffman coding: a shallow embedding of [huffman_tree]

    The development follows the C++ class [huffman_tree] (constructor,
    [get_character_code], [encode], [decode]) and its helpers
    ([read_file], [encode_characters], [Compare], [Node]).

    Modelling conventions.
    - [char] is the 8-bit type [ascii]; the code tests [character < 0] and
      stores [-64] as the mark of an inner node, so plain [char] is read as
      a signed byte ([Char.to_Z]).
    - [int] counters are exact integers [Z]: signed overflow is undefined in
      C++, so the model describes runs whose text has fewer than 2^31
      characters. For such a text no counter and no frequency of a node
      goes beyond [Int.max]; the theorems that give the value of a counter
      or of a frequency are stated for such texts.
    - [std::string] is [string]; an index into a string that only moves
      forward is the suffix that is still to be read.
    - [std::map<char, V>] is [gmap ascii V]; iteration ([begin], [++it])
      visits the keys in increasing signed order ([map_items]).
    - [Node*] is [option Node], [nullptr] being [None].
    - [std::priority_queue<Node*, std::vector<Node*>, Compare>] is the
      underlying vector together with the two heap algorithms the C++
      standard defines it by ([push_heap], [pop_heap]); these are taken
      through the interface [HeapAlgorithms], whose laws are the ones the
      standard states, so every result holds for every conforming library.
    - a file name is [option string]: [None] when the file cannot be
      opened, otherwise its text. The stream and [std::getline] are
      [ifstream] and [getline]; the loops over the lines of a file run over
      [getlines], the lines those calls deliver ([getline_loop_getlines]). *)

From Stdlib Require Import Ascii.
From stdpp Require Import gmap strings list sorting.

Local Open Scope Z_scope.
#[local] Arguments String.append !_ _ / : simpl nomatch.

(** ** Characters *)

Module Char.
(** The value of a [char] (signed, 8 bit). *)
Definition to_Z (c : ascii) : Z :=
  let n := Z.of_N (Ascii.N_of_ascii c) in
  if n <? 128 then n else n - 256.

Definition of_Z (z : Z) : ascii := Ascii.ascii_of_N (Z.to_N (z mod 256)).

(** ['\n'] *)
Definition newline : ascii := "010"%char.

(** The default [character_] of [Node::Node]: [-64]. *)
Definition no_character : ascii := of_Z (-64).

(** Every [char], in increasing order of value: -128, ..., 127. *)
Definition all : list ascii :=
  (λ i : nat, of_Z (Z.of_nat i - 128)) <$> seq 0 256.
End Char.

(** ** [int] *)

Module Int.
(** [INT_MAX] of a 32-bit [int]. *)
Definition max : Z := 2147483647.
End Int.

(** ** [std::map<char, V>] *)

Section std_map.
Context {V : Type}.

(** The elements from [begin()] to [end()]. *)
Definition map_items (m : gmap ascii V) : list (ascii * V) :=
  omap (λ c, (c,.) <$> m !! c) Char.all.

(** [m.emplace(k, v)]: nothing happens when [k] is already a key. *)
Definition emplace (k : ascii) (v : V) (m : gmap ascii V) : gmap ascii V :=
  match m !! k with
  | Some _ => m
  | None => <[k:=v]> m
  end.
End std_map.

(** ** Nodes *)

#[warnings="-register-all"]
Inductive Node : Type :=
  mkNode { character : ascii; frequency : Z;
           right : option Node; left : option Node }.

(** [Node::Node(char character_ = -64, int frequency_ = 0)] *)
Definition Node_new (character_ : ascii) (frequency_ : Z) : Node :=
  mkNode character_ frequency_ None None.

Definition Node_default : Node := Node_new Char.no_character 0.

(** [Compare::operator()] *)
Definition Compare (left right : Node) : bool :=
  bool_decide (frequency left > frequency right).

(** ** The heap algorithms behind [std::priority_queue] *)

(** [std::is_heap(v.begin(), v.end(), Compare())] *)
Definition is_heap (v : list Node) : Prop :=
  ∀ (i : nat) p c, (0 < i)%nat →
    v !! ((i - 1) / 2)%nat = Some p → v !! i = Some c → Compare p c = false.

(** [push_heap] expects a heap followed by one more element and makes the
    whole range a heap; [pop_heap] expects a non-empty heap, moves its
    first element to the last place and makes the rest a heap. *)
Class HeapAlgorithms := {
  push_heap : list Node → list Node;
  pop_heap : list Node → list Node;
  push_heap_spec v x :
    is_heap v → is_heap (push_heap (v ++ [x])) ∧ push_heap (v ++ [x]) ≡ₚ v ++ [x];
  pop_heap_spec x v :
    is_heap (x :: v) →
    ∃ v', pop_heap (x :: v) = v' ++ [x] ∧ is_heap v' ∧ v' ≡ₚ v
}.

(** A library that keeps the vector sorted by frequency. *)
Module SortedHeap.
Fixpoint insert (x : Node) (v : list Node) : list Node :=
  match v with
  | [] => [x]
  | y :: v' => if Compare x y then y :: insert x v' else x :: v
  end.

Definition sort (v : list Node) : list Node := foldr insert [] v.

Definition push_heap (v : list Node) : list Node := sort v.

Definition pop_heap (v : list Node) : list Node :=
  match v with
  | [] => []
  | x :: v' => sort v' ++ [x]
  end.
End SortedHeap.

(** ** Text files *)

(** An input stream over a text: what is still unread, and the state bits
    that [good()] and the conversion to [bool] look at. *)
Record ifstream := {
  unread : string;
  eofbit : bool;
  failbit : bool
}.

Definition open_stream (text : string) : ifstream :=
  {| unread := text; eofbit := false; failbit := false |}.

Definition good (file : ifstream) : bool := negb (eofbit file) && negb (failbit file).

(** The characters up to the next ['\n'], and what follows it; [None] when
    the text ends first. *)
Fixpoint extract_line (s : string) : string * option string :=
  match s with
  | "" => ("", None)
  | String c s' =>
      if decide (c = Char.newline) then ("", Some s')
      else let '(line, rest) := extract_line s' in (String c line, rest)
  end.

(** [std::getline(file, line)]: on a stream that is not good nothing is
    read and [failbit] is set; otherwise characters are taken up to and
    with the next ['\n'], which is dropped; reaching the end of the text
    sets [eofbit], and [failbit] as well if nothing at all was taken. *)
Definition getline (file : ifstream) : string * ifstream :=
  if good file then
    match extract_line (unread file) with
    | (line, Some rest) => (line, {| unread := rest; eofbit := false; failbit := false |})
    | (line, None) =>
        (line, {| unread := ""; eofbit := true; failbit := bool_decide (line = "") |})
    end
  else ("", {| unread := unread file; eofbit := eofbit file; failbit := true |}).

(** [while (std::getline(file, line)) { ... file.good() ... }]: the lines
    the body sees, each with the value of [file.good()] in the body. *)
Fixpoint getline_loop (fuel : nat) (file : ifstream) : list (string * bool) :=
  match fuel with
  | O => []
  | S fuel' =>
      let '(line, file) := getline file in
      if failbit file then [] else (line, good file) :: getline_loop fuel' file
  end.

(** The same lines by recursion on the text ([getline_loop_getlines]):
    a line comes with [true] when it was ended by ['\n'] and with [false]
    when it was ended by the end of the file; a call that finds the end of
    the file at once fails and ends the loop. The loops of [read_file] and
    [encode] run over these lines. *)
Fixpoint getlines (s : string) : list (string * bool) :=
  match s with
  | "" => []
  | String c s' =>
      if decide (c = Char.newline) then ("", true) :: getlines s'
      else match getlines s' with
           | [] => [(String c "", false)]
           | (line, good) :: rest => (String c line, good) :: rest
           end
  end.

(** ** The class *)

Record huffman_tree := {
  frequencies : gmap ascii Z;
  encoded_chars : gmap ascii string;
  node_queue : list Node
}.

(** [read_file]: one character of a line. [it->second += 1] is on an
    [int]; the sum is the exact one while the count is below [Int.max]. *)
Definition count_character (character : ascii) (frequencies : gmap ascii Z)
  : gmap ascii Z :=
  match frequencies !! character with
  | None => emplace character 1 frequencies
  | Some n => <[character := n + 1]> frequencies
  end.

(** [read_file]: the [for] loop over one line. *)
Fixpoint read_line (line : string) (frequencies : gmap ascii Z) : gmap ascii Z :=
  match line with
  | "" => frequencies
  | String character line' => read_line line' (count_character character frequencies)
  end.

(** [read_file]: the [while (std::getline(file, line))] loop. [numLines++]
    is on an [int], exact while [numLines] is below [Int.max]. *)
Fixpoint read_lines (lines : list (string * bool))
    (frequencies : gmap ascii Z) (numLines : Z) : gmap ascii Z * Z :=
  match lines with
  | [] => (frequencies, numLines)
  | (line, good) :: lines' =>
      read_lines lines' (read_line line frequencies)
        (if good then numLines + 1 else numLines)
  end.

Definition read_file (file : option string) (frequencies : gmap ascii Z)
  : gmap ascii Z :=
  match file with
  | Some text =>
      let '(frequencies, numLines) := read_lines (getlines text) frequencies 0 in
      if bool_decide (numLines > 0) then emplace Char.newline numLines frequencies
      else frequencies
  | None => frequencies
  end.

(** [encode_characters] *)
Fixpoint encode_characters (code : string) (node : Node)
    (encoded_chars : gmap ascii string) : gmap ascii string :=
  match node with
  | mkNode character _ right left =>
      if bool_decide (Char.to_Z character >= 0) then emplace character code encoded_chars
      else
        let encoded_chars :=
          match left with
          | Some l => encode_characters (code +:+ "0") l encoded_chars
          | None => encoded_chars
          end in
        match right with
        | Some r => encode_characters (code +:+ "1") r encoded_chars
        | None => encoded_chars
        end
  end.

Section priority_queue.
Context `{HeapAlgorithms}.

(** [push]: [c.push_back(x); push_heap(c.begin(), c.end(), comp)] *)
Definition pq_push (x : Node) (c : list Node) : list Node := push_heap (c ++ [x]).

(** [pop]: [pop_heap(c.begin(), c.end(), comp); c.pop_back()] *)
Definition pq_pop (c : list Node) : list Node := removelast (pop_heap c).

(** [top]: [c.front()]; the code asks for it on non-empty queues only. *)
Definition pq_top (c : list Node) : option Node := head c.

Definition pq_size (c : list Node) : nat := length c.

Definition pq_empty (c : list Node) : bool := bool_decide (c = []).

(** Constructor, first loop: one leaf for each entry of the table. *)
Definition push_leaves (frequencies : gmap ascii Z) (node_queue : list Node)
  : list Node :=
  foldl (λ q it, if bool_decide (it.2 > 0) then pq_push (Node_new it.1 it.2) q else q)
    node_queue (map_items frequencies).

(** Constructor, body of the [while (node_queue.size() > 1)] loop. The
    loop condition leaves two nodes to take; [top()] of an empty queue is
    undefined in C++, and the [None] branches are never reached
    ([merge_step_spec]). The sum of the two frequencies is a sum of [int]s,
    exact while it is at most [Int.max]. *)
Definition merge_step (node_queue : list Node) : list Node :=
  match pq_top node_queue with
  | Some left =>
      let node_queue := pq_pop node_queue in
      match pq_top node_queue with
      | Some right =>
          let node_queue := pq_pop node_queue in
          pq_push (mkNode (character Node_default)
                     (frequency left + frequency right) (Some right) (Some left))
            node_queue
      | None => node_queue
      end
  | None => node_queue
  end.

(** The loop itself; every turn makes the queue one shorter, so
    [pq_size node_queue] turns are enough ([merge_loop_fuel]). *)
Fixpoint merge_loop (fuel : nat) (node_queue : list Node) : list Node :=
  match fuel with
  | O => node_queue
  | S fuel' =>
      if bool_decide (1 < pq_size node_queue)%nat
      then merge_loop fuel' (merge_step node_queue)
      else node_queue
  end.

(** The constructor after [read_file]. *)
Definition build (frequencies : gmap ascii Z) : huffman_tree :=
  let node_queue := push_leaves frequencies [] in
  let node_queue := merge_loop (pq_size node_queue) node_queue in
  let encoded_chars :=
    if negb (pq_empty node_queue) && negb (bool_decide (size frequencies = 1%nat))
    then match pq_top node_queue with
         | Some root => encode_characters "" root ∅
         | None => ∅
         end
    else ∅ in
  let encoded_chars :=
    if bool_decide (size frequencies = 1%nat)
    then match map_items frequencies with
         | it :: _ => emplace it.1 "0" encoded_chars
         | [] => encoded_chars
         end
    else encoded_chars in
  {| frequencies := frequencies;
     encoded_chars := encoded_chars;
     node_queue := node_queue |}.

(** [huffman_tree::huffman_tree(file_name)] *)
Definition construct (file : option string) : huffman_tree :=
  build (read_file file ∅).
End priority_queue.

(** [get_character_code] *)
Definition get_character_code (t : huffman_tree) (character : ascii) : string :=
  match encoded_chars t !! character with
  | None => ""
  | Some code => code
  end.

(** [encode]: the [for] loop over one line; [None] is [return ""]. *)
Fixpoint encode_line (t : huffman_tree) (line : string) (encoded : string)
  : option string :=
  match line with
  | "" => Some encoded
  | String character line' =>
      match encoded_chars t !! character with
      | None => None
      | Some code => encode_line t line' (encoded +:+ code)
      end
  end.

(** [encode]: the [while (std::getline(file, line))] loop. *)
Fixpoint encode_lines (t : huffman_tree) (lines : list (string * bool))
    (encoded : string) : string :=
  match lines with
  | [] => encoded
  | (line, good) :: lines' =>
      match encode_line t line encoded with
      | None => ""
      | Some encoded =>
          if good then
            match encoded_chars t !! Char.newline with
            | Some code => encode_lines t lines' (encoded +:+ code)
            | None => ""
            end
          else encode_lines t lines' encoded
      end
  end.

Definition encode (t : huffman_tree) (file : option string) : string :=
  match file with
  | Some text => encode_lines t (getlines text) ""
  | None => ""
  end.

(** [decode], inner loop: follow the bits from [node] while it is an inner
    node and input is left. [None] is [return ""] on a character that is
    not a bit; otherwise the node reached and the input still unread. *)
Fixpoint traverse (node : option Node) (s : string) {struct s}
  : option (option Node * string) :=
  match node with
  | Some n =>
      if bool_decide (Char.to_Z (character n) < 0) then
        match s with
        | "" => Some (node, s)
        | String bit s' =>
            if decide (bit = "0"%char) then traverse (left n) s'
            else if decide (bit = "1"%char) then traverse (right n) s'
            else None
        end
      else Some (node, s)
  | None => Some (node, s)
  end.

(** [decode], outer loop. The result is [None] when [fuel] turns did not
    reach the end of the input. *)
Fixpoint decode_loop (fuel : nat) (root : option Node) (s : string)
    (decoded : string) : option string :=
  match s with
  | "" => Some decoded
  | _ =>
      match fuel with
      | O => None
      | S fuel' =>
          match traverse root s with
          | None => Some ""
          | Some (Some node, s') =>
              decode_loop fuel' root s' (decoded +:+ String (character node) "")
          | Some (None, _) => Some ""
          end
      end
  end.

(** [decode], the loop of the one-symbol case. *)
Fixpoint decode_only (only_char : ascii) (s : string) (decoded : string) : string :=
  match s with
  | "" => decoded
  | String c s' =>
      if decide (c = "0"%char) then decode_only only_char s' (decoded +:+ String only_char "")
      else ""
  end.

(** [decode]. Each turn of the outer loop reads at least one character
    when the root is an inner node, so [String.length] turns are enough
    ([decode_loop_fuel], [decode_total]); [None] stands for a run that does
    not end. With more than one symbol the queue holds the root
    ([build_spec]), so [top()] is defined. *)
Definition decode (t : huffman_tree) (string_to_decode : string) : option string :=
  if bool_decide (1 < size (frequencies t))%nat then
    decode_loop (String.length string_to_decode) (head (node_queue t))
      string_to_decode ""
  else if bool_decide (size (frequencies t) = 1%nat) then
    match map_items (frequencies t) with
    | it :: _ => Some (decode_only it.1 string_to_decode "")
    | [] => Some ""
    end
  else Some "".

(** [delete_tree]: the nodes given to [delete], in that order, after those
    deleted before. The test [node != nullptr] comes after [node] has been
    dereferenced and always holds. *)
Fixpoint delete_tree (node : Node) (deleted : list Node) : list Node :=
  match node with
  | mkNode _ _ right left =>
      let deleted :=
        match left with
        | Some l => delete_tree l deleted
        | None => deleted
        end in
      let deleted :=
        match right with
        | Some r => delete_tree r deleted
        | None => deleted
        end in
      deleted ++ [node]
  end.

Section destructor.
Context `{HeapAlgorithms}.

(** [huffman_tree::~huffman_tree]: the queue it leaves and the nodes it
    deletes, in that order. *)
Definition destroy (t : huffman_tree) : list Node * list Node :=
  if negb (pq_empty (node_queue t)) then
    match pq_top (node_queue t) with
    | Some node => (pq_pop (node_queue t), delete_tree node [])
    | None => (node_queue t, [])
    end
  else (node_queue t, []).
End destructor.

(** * Vocabulary of the specification *)

(** ** Texts and lines *)

(** How often a character occurs in a string. *)
Fixpoint occurrences (c : ascii) (s : string) : Z :=
  match s with
  | "" => 0
  | String c' s' => (if decide (c = c') then 1 else 0) + occurrences c s'
  end.

(** How often a character occurs in the lines of a file. *)
Definition line_occurrences (c : ascii) (lines : list (string * bool)) : Z :=
  foldr (λ l n, occurrences c l.1 + n) 0 lines.

(** The number of lines that were ended by a line terminator. *)
Definition terminated (lines : list (string * bool)) : Z :=
  foldr (λ l n, (if l.2 : bool then 1 else 0) + n) 0 lines.

(** The text that a sequence of lines stands for. *)
Definition unlines (lines : list (string * bool)) : string :=
  foldr (λ l s, l.1 +:+ (if l.2 : bool then String Char.newline s else s)) "" lines.

(** ** Frequency tables *)

(** A table entry after [k] more occurrences have been counted. *)
Definition bump (o : option Z) (k : Z) : option Z :=
  if decide (k = 0) then o else Some (default 0 o + k).

(** Every count in the table is positive. *)
Definition positive_counts (m : gmap ascii Z) : Prop :=
  ∀ c n, m !! c = Some n → 0 < n.

(** ** Trees *)

(** The trees the constructor builds: a leaf holds a character and its
    count, an inner node has two subtrees. *)
Inductive htree : Type :=
| Leaf (c : ascii) (f : Z)
| Inner (l r : htree).

Fixpoint weight (t : htree) : Z :=
  match t with
  | Leaf _ f => f
  | Inner l r => weight l + weight r
  end.

(** The node structure that stands for a tree. *)
Fixpoint to_node (t : htree) : Node :=
  match t with
  | Leaf c f => Node_new c f
  | Inner l r =>
      mkNode (character Node_default) (weight l + weight r)
        (Some (to_node r)) (Some (to_node l))
  end.

(** The tree a node structure is read as: a node with both children is an
    inner node, every other node a leaf. *)
Fixpoint of_node (n : Node) : htree :=
  match n with
  | mkNode _ _ (Some r) (Some l) => Inner (of_node l) (of_node r)
  | mkNode c f _ _ => Leaf c f
  end.

(** A node structure as the constructor makes them. *)
Definition well_formed (n : Node) : Prop := to_node (of_node n) = n.

(** The leaves from left to right, each with its count and with the bits
    on the way to it, ['0'] for a left and ['1'] for a right turn. *)
Fixpoint coded (t : htree) : list (ascii * Z * string) :=
  match t with
  | Leaf c f => [(c, f, "")]
  | Inner l r =>
      ((λ x, (x.1, String "0" x.2)) <$> coded l)
        ++ ((λ x, (x.1, String "1" x.2)) <$> coded r)
  end.

Definition leaves (t : htree) : list (ascii * Z) := (coded t).*1.

(** The sum of [f] over a list. *)
Definition sum_with {A} (f : A → Z) (l : list A) : Z :=
  foldr (λ x s, f x + s) 0 l.

(** Weighted path length: the sum over the leaves of count times depth. *)
Fixpoint wpl (t : htree) : Z :=
  match t with
  | Leaf _ _ => 0
  | Inner l r => wpl l + wpl r + weight l + weight r
  end.

(** Huffman's algorithm as a relation: while more than one tree is left,
    two trees of least weight are joined. *)
Inductive huffman_merge : list htree → htree → Prop :=
| merge_done t : huffman_merge [t] t
| merge_two ts a b rest t :
    ts ≡ₚ a :: b :: rest →
    weight a ≤ weight b →
    Forall (λ u, weight b ≤ weight u) rest →
    huffman_merge (Inner a b :: rest) t →
    huffman_merge ts t.

(** ** Encoding, as the specification words it *)

(** The codes of the characters of a string, one after the other. *)
Fixpoint encode_text (t : huffman_tree) (s : string) : string :=
  match s with
  | "" => ""
  | String c s' => get_character_code t c +:+ encode_text t s'
  end.

(** Every character of the string has an entry in the code table. *)
Fixpoint all_coded (t : huffman_tree) (s : string) : bool :=
  match s with
  | "" => true
  | String c s' => bool_decide (is_Some (encoded_chars t !! c)) && all_coded t s'
  end.

(** A line can be encoded: its characters have codes, and so has the
    terminator if the line was ended by one. *)
Definition line_coded (t : huffman_tree) (l : string * bool) : bool :=
  all_coded t l.1 &&
  (if l.2 then bool_decide (is_Some (encoded_chars t !! Char.newline)) else true).

(** The codes of a line, with the code of the terminator after a line that
    was ended by one. *)
Definition encode_line_spec (t : huffman_tree) (l : string * bool) : string :=
  encode_text t l.1 +:+ (if l.2 then get_character_code t Char.newline else "").

(** The code the leaves list for a character, at its first occurrence. *)
Fixpoint find_code (c : ascii) (l : list (ascii * Z * string)) : option string :=
  match l with
  | [] => None
  | x :: l' => if decide (x.1.1 = c) then Some x.2 else find_code c l'
  end.

(** The leaves the constructor starts from. *)
Definition leaf_forest (m : gmap ascii Z) : list htree :=
  (λ it, Leaf it.1 it.2) <$> map_items m.

(** ** Bit strings *)

(** The string consists of the characters ['0'] and ['1'] only. *)
Fixpoint binary (s : string) : bool :=
  match s with
  | "" => true
  | String b s' => (bool_decide (b = "0"%char) || bool_decide (b = "1"%char)) && binary s'
  end.

(** ** Code lengths *)

(** The depths of the leaves of a binary tree in which every inner node
    has two children, from left to right. *)
Inductive tree_depths : list nat → Prop :=
| depths_leaf : tree_depths [0%nat]
| depths_node dl dr :
    tree_depths dl → tree_depths dr → tree_depths (S <$> (dl ++ dr)).

(** The cost of giving the weights [ws] the depths [ds]. *)
Fixpoint dot (ws : list Z) (ds : list nat) : Z :=
  match ws, ds with
  | w :: ws', d :: ds' => w * Z.of_nat d + dot ws' ds'
  | _, _ => 0
  end.

(** The expected length of a code: the sum over the symbols of the table
    of count times length of the code word. *)
Definition expected_length (m : gmap ascii Z) (code : ascii → string) : Z :=
  sum_with (λ it, it.2 * Z.of_nat (String.length (code it.1))) (map_items m).

(** A prefix-free binary code for the symbols of a table: every symbol has
    a non-empty word of the digits ['0'] and ['1'], and no word is a prefix
    of the word of another symbol. *)
Definition prefix_code (m : gmap ascii Z) (code : ascii → string) : Prop :=
  (∀ c, is_Some (m !! c) → code c ≠ "" ∧ binary (code c) = true)
  ∧ (∀ c1 c2, is_Some (m !! c1) → is_Some (m !! c2) → c1 ≠ c2 →
       String.prefix (code c1) (code c2) = false).

(** The first character of a string, and the string after it. *)
Definition first_char (s : string) : option ascii :=
  match s with
  | "" => None
  | String b _ => Some b
  end.

Definition rest_chars (s : string) : string :=
  match s with
  | "" => ""
  | String _ s' => s'
  end.

(** ** Texts over the characters 0 to 127 *)

(** The number of characters of a file; a file that cannot be opened has
    none. *)
Definition file_size (file : option string) : Z :=
  match file with
  | Some text => Z.of_nat (String.length text)
  | None => 0
  end.

(** The sum of [L] over the characters of a string. *)
Fixpoint sum_text (L : ascii → Z) (s : string) : Z :=
  match s with
  | "" => 0
  | String c s' => L c + sum_text L s'
  end.

(** Every character of the string has a value from 0 to 127, as the
    precondition of [get_character_code] asks. *)
Fixpoint ascii_text (s : string) : bool :=
  match s with
  | "" => true
  | String c s' => bool_decide (Char.to_Z c >= 0) && ascii_text s'
  end.

(** Every symbol of the table has a value from 0 to 127. *)
Definition ascii_table (m : gmap ascii Z) : Prop :=
  ∀ c, is_Some (m !! c) → Char.to_Z c >= 0.

(** The string consists of the character ['0'] only. *)
Fixpoint zeros (s : string) : bool :=
  match s with
  | "" => true
  | String b s' => bool_decide (b = "0"%char) && zeros s'
  end.

(** [n] times the character [c]. *)
Fixpoint copies (n : nat) (c : ascii) : string :=
  match n with
  | O => ""
  | S n' => String c (copies n' c)
  end.

(** The nodes of a tree, children before their parent, left before right. *)
Fixpoint postorder (t : htree) : list Node :=
  match t with
  | Leaf c f => [to_node t]
  | Inner l r => postorder l ++ postorder r ++ [to_node t]
  end.

(** The height of a node structure. *)
Fixpoint height (node : Node) : nat :=
  match node with
  | mkNode _ _ right left =>
      S (Nat.max (match right with Some r => height r | None => 0 end)
                 (match left with Some l => height l | None => 0 end))
  end.

(** * Properties *)

(** ** Characters and maps *)

Lemma Char_of_to_Z c : Char.of_Z (Char.to_Z c) = c.
Proof. by destruct c as [[] [] [] [] [] [] [] []]. Qed.

Lemma Char_to_Z_range c : -128 ≤ Char.to_Z c < 128.
Proof. destruct c as [[] [] [] [] [] [] [] []]; by vm_compute. Qed.

Lemma Char_all_complete c : c ∈ Char.all.
Proof.
  apply list_elem_of_fmap. exists (Z.to_nat (Char.to_Z c + 128)). split.
  - rewrite <- (Char_of_to_Z c) at 1. f_equal. pose proof (Char_to_Z_range c). lia.
  - apply elem_of_seq. pose proof (Char_to_Z_range c). lia.
Qed.

Lemma Char_all_NoDup : NoDup Char.all.
Proof. apply (bool_decide_unpack _). by vm_compute. Qed.

Section std_map_facts.
Context {V : Type}.
Implicit Types (m : gmap ascii V).

Lemma elem_of_map_items m c v : (c, v) ∈ map_items m ↔ m !! c = Some v.
Proof.
  unfold map_items. rewrite list_elem_of_omap. split.
  - intros (c' & _ & Hc). destruct (m !! c') eqn:E; simplify_eq/=. done.
  - intros Hc. exists c. split; [apply Char_all_complete|]. by rewrite Hc.
Qed.

Lemma map_items_fst m : (map_items m).*1 = filter (λ c, is_Some (m !! c)) Char.all.
Proof.
  unfold map_items. induction Char.all as [|c l IH]; [done|].
  rewrite filter_cons. simpl.
  destruct (decide (is_Some (m !! c))) as [[v Hv]|Hn].
  - rewrite Hv. simpl. by f_equal.
  - apply eq_None_not_Some in Hn. by rewrite Hn.
Qed.

Lemma NoDup_map_items_fst m : NoDup (map_items m).*1.
Proof. rewrite map_items_fst. apply NoDup_filter, Char_all_NoDup. Qed.

Lemma map_items_Permutation m : map_items m ≡ₚ map_to_list m.
Proof.
  apply NoDup_Permutation.
  - eapply NoDup_fmap_1, NoDup_map_items_fst.
  - apply NoDup_map_to_list.
  - intros [c v]. by rewrite elem_of_map_items, elem_of_map_to_list.
Qed.

Lemma length_map_items m : length (map_items m) = size m.
Proof. by rewrite map_items_Permutation, length_map_to_list. Qed.

Lemma map_items_empty : map_items (∅ : gmap ascii V) = [].
Proof.
  apply length_zero_iff_nil. by rewrite length_map_items, map_size_empty.
Qed.

Lemma lookup_emplace m k v c :
  emplace k v m !! c =
    if decide (k = c) then Some (default v (m !! k)) else m !! c.
Proof.
  unfold emplace. destruct (m !! k) eqn:E; case_decide; simplify_map_eq; done.
Qed.
End std_map_facts.

(** ** Strings *)

Lemma append_nil_r (s : string) : s +:+ "" = s.
Proof. induction s; simpl; by f_equal. Qed.

Lemma append_assoc (s1 s2 s3 : string) : (s1 +:+ s2) +:+ s3 = s1 +:+ (s2 +:+ s3).
Proof. induction s1; simpl; by f_equal. Qed.

Lemma length_append (s1 s2 : string) :
  String.length (s1 +:+ s2) = (String.length s1 + String.length s2)%nat.
Proof. induction s1; simpl; by f_equal. Qed.

Lemma occurrences_nonneg c s : 0 ≤ occurrences c s.
Proof. induction s; simpl; [done|]. case_decide; lia. Qed.

Lemma occurrences_length c s : occurrences c s ≤ Z.of_nat (String.length s).
Proof. induction s; cbn [occurrences String.length]; [done|]. case_decide; lia. Qed.

Lemma occurrences_append c s1 s2 :
  occurrences c (s1 +:+ s2) = occurrences c s1 + occurrences c s2.
Proof. induction s1; simpl; lia. Qed.

(** ** Lines *)

Lemma getlines_cons c s :
  getlines (String c s) =
    if decide (c = Char.newline) then ("", true) :: getlines s
    else match getlines s with
         | [] => [(String c "", false)]
         | l :: rest => (String c l.1, l.2) :: rest
         end.
Proof. simpl. case_decide; [done|]. by destruct (getlines s) as [|[??]?]. Qed.

Lemma extract_line_getlines s :
  getlines s =
    match extract_line s with
    | (line, Some rest) => (line, true) :: getlines rest
    | (line, None) => if decide (line = "") then [] else [(line, false)]
    end.
Proof.
  induction s as [|c s IH]; [done|]. rewrite getlines_cons. simpl.
  case_decide; [done|]. rewrite IH.
  destruct (extract_line s) as [line [rest|]]; simpl; [done|].
  by destruct (decide (line = "")) as [->|].
Qed.

Lemma extract_line_length s line rest :
  extract_line s = (line, Some rest) → (String.length rest < String.length s)%nat.
Proof.
  revert line. induction s as [|c s IH]; intros line; [done|]. simpl.
  case_decide; [intros [= _ <-]; lia|].
  destruct (extract_line s) as [line' [rest'|]]; [|done].
  intros [= _ <-]. specialize (IH _ eq_refl). lia.
Qed.

(** The calls of [std::getline] deliver the lines of the text; one call
    more than the text has characters ends the loop. *)
Lemma getline_loop_getlines fuel s :
  (String.length s < fuel)%nat → getline_loop fuel (open_stream s) = getlines s.
Proof.
  revert s. induction fuel as [|fuel IH]; intros s Hfuel; [lia|].
  rewrite extract_line_getlines. cbn [getline_loop]. unfold getline. cbn.
  destruct (extract_line s) as [line [rest|]] eqn:E; cbn.
  - f_equal. apply IH. apply extract_line_length in E. lia.
  - case_decide as Hline.
    + by rewrite bool_decide_eq_true_2.
    + rewrite bool_decide_eq_false_2 by done. f_equal. by destruct fuel.
Qed.

(** The lines of a text, put together again, are the text. *)
Lemma unlines_getlines s : unlines (getlines s) = s.
Proof.
  induction s as [|c s IH]; [done|]. rewrite getlines_cons. case_decide.
  - subst c. simpl. by rewrite IH.
  - destruct (getlines s) as [|[l g] rest] eqn:E; simpl in *.
    + by rewrite <- IH.
    + by rewrite IH.
Qed.

(** Only the last line of a file can lack its terminator. *)
Lemma getlines_good s pre x post :
  getlines s = pre ++ x :: post → post ≠ [] → x.2 = true.
Proof.
  revert pre x post. induction s as [|c s IH]; intros pre x post.
  - by destruct pre.
  - rewrite getlines_cons. case_decide.
    + destruct pre as [|y pre]; intros [= <- Hs] Hpost; [done|]. eauto.
    + destruct (getlines s) as [|l rest] eqn:E.
      * by destruct pre as [|y [|??]]; intros [= <- <-].
      * destruct pre as [|y pre]; intros [= <- Hs] Hpost.
        -- simpl. apply (IH [] l rest); by subst.
        -- apply (IH (l :: pre) x post); [by subst|done].
Qed.

(** No line contains the terminator. *)
Lemma getlines_no_newline s l :
  l ∈ getlines s → occurrences Char.newline l.1 = 0.
Proof.
  revert l. induction s as [|c s IH]; intros l.
  - by intros ?%elem_of_nil.
  - rewrite getlines_cons. case_decide.
    + intros [->|?]%elem_of_cons; [done|]. by apply IH.
    + destruct (getlines s) as [|l' rest] eqn:E.
      * intros ->%list_elem_of_singleton. simpl. by rewrite decide_False.
      * intros [->|?]%elem_of_cons; simpl.
        -- rewrite decide_False by done. rewrite (IH l'); [done|]. by left.
        -- apply IH. by right.
Qed.

Lemma occurrences_unlines c lines :
  occurrences c (unlines lines) =
    line_occurrences c lines + (if decide (c = Char.newline) then terminated lines else 0).
Proof.
  induction lines as [|[l g] lines IH]; simpl.
  - by case_decide.
  - rewrite occurrences_append. destruct g; simpl; rewrite IH; repeat case_decide; lia.
Qed.

(** The terminators of a text are the lines that are terminated. *)
Lemma terminated_getlines s : terminated (getlines s) = occurrences Char.newline s.
Proof.
  rewrite <- (unlines_getlines s) at 2. rewrite occurrences_unlines.
  rewrite decide_True by done.
  assert (line_occurrences Char.newline (getlines s) = 0) as ->; [|done].
  pose proof (getlines_no_newline s) as Hno.
  induction (getlines s) as [|l lines IH]; [done|]. simpl.
  rewrite (Hno l), IH; [done| |by left]. intros l' ?. apply Hno. by right.
Qed.

(** ** [read_file] *)

Lemma bump_bump o k1 k2 : 0 ≤ k1 → 0 ≤ k2 → bump (bump o k1) k2 = bump o (k1 + k2).
Proof.
  intros ??. unfold bump.
  destruct (decide (k1 = 0)), (decide (k2 = 0)), (decide (k1 + k2 = 0));
    try lia; subst; simpl; try done; f_equal; lia.
Qed.

Lemma lookup_count_character c m c' :
  count_character c m !! c' = bump (m !! c') (if decide (c = c') then 1 else 0).
Proof.
  unfold count_character, bump.
  destruct (m !! c) as [n|] eqn:E.
  - destruct (decide (c = c')) as [<-|Hne].
    + by rewrite lookup_insert_eq, E.
    + by rewrite lookup_insert_ne.
  - rewrite lookup_emplace. destruct (decide (c = c')) as [<-|Hne]; [|done].
    by rewrite E.
Qed.

Lemma lookup_read_line line m c :
  read_line line m !! c = bump (m !! c) (occurrences c line).
Proof.
  revert m. induction line as [|c' line IH]; intros m; [done|].
  simpl. rewrite IH, lookup_count_character.
  pose proof (occurrences_nonneg c line).
  rewrite bump_bump by (try case_decide; lia).
  by destruct (decide (c' = c)), (decide (c = c')).
Qed.

Lemma line_occurrences_nonneg c lines : 0 ≤ line_occurrences c lines.
Proof.
  induction lines as [|l lines IH]; simpl; [done|].
  pose proof (occurrences_nonneg c l.1). lia.
Qed.

Lemma terminated_nonneg lines : 0 ≤ terminated lines.
Proof. induction lines as [|[l []] lines IH]; simpl; lia. Qed.

Lemma read_lines_spec lines m numLines :
  (∀ c, (read_lines lines m numLines).1 !! c = bump (m !! c) (line_occurrences c lines))
  ∧ (read_lines lines m numLines).2 = numLines + terminated lines.
Proof.
  revert m numLines. induction lines as [|[l g] lines IH]; intros m numLines.
  - split; [done|simpl; lia].
  - simpl. destruct (IH (read_line l m) (if g then numLines + 1 else numLines)) as [IH1 IH2].
    split.
    + intros c. rewrite IH1, lookup_read_line.
      apply bump_bump; [apply occurrences_nonneg|apply line_occurrences_nonneg].
    + rewrite IH2. destruct g; lia.
Qed.

Lemma line_occurrences_newline s : line_occurrences Char.newline (getlines s) = 0.
Proof.
  pose proof (getlines_no_newline s) as Hno.
  induction (getlines s) as [|l lines IH]; [done|]. simpl.
  rewrite (Hno l), IH; [done| |by left]. intros l' ?. apply Hno. by right.
Qed.

(** The table built from a text holds, for every character, the number of
    its occurrences, and no entry for a character that does not occur. *)
Lemma lookup_read_file text c :
  read_file (Some text) ∅ !! c = bump None (occurrences c text).
Proof.
  unfold read_file.
  pose proof (read_lines_spec (getlines text) ∅ 0) as [H1 H2].
  destruct (read_lines (getlines text) ∅ 0) as [m n]. simpl in *.
  rewrite <- (unlines_getlines text) at 1. rewrite occurrences_unlines.
  pose proof (terminated_nonneg (getlines text)).
  case_bool_decide.
  - rewrite lookup_emplace. case_decide as Hc.
    + subst c. rewrite H1, lookup_empty, line_occurrences_newline.
      unfold bump. simpl. rewrite decide_False by lia. f_equal. lia.
    + rewrite H1, lookup_empty, decide_False by done. f_equal. lia.
  - rewrite H1, lookup_empty. f_equal. case_decide; lia.
Qed.

Lemma read_file_positive file : positive_counts (read_file file ∅).
Proof.
  intros c n. destruct file as [text|]; [|done].
  rewrite lookup_read_file. unfold bump. case_decide; [done|].
  intros [= <-]. pose proof (occurrences_nonneg c text). simpl. lia.
Qed.

(** C8. For a file of at most [Int.max] characters, the table built by
    [read_file] counts every occurrence of every character of every line;
    the line terminator is counted once for each line that was ended by
    one, which every line but possibly the last is; a character that does
    not occur, and the terminator when no line was terminated, has no entry
    at all; every count of the table is from 1 to [Int.max], so that no
    [int] went beyond its range. A file that cannot be opened leaves the
    table empty. *)
Theorem read_file_table :
  (∀ text, Z.of_nat (String.length text) ≤ Int.max →
     (∀ c, c ≠ Char.newline →
        read_file (Some text) ∅ !! c =
          if decide (line_occurrences c (getlines text) = 0) then None
          else Some (line_occurrences c (getlines text)))
     ∧ read_file (Some text) ∅ !! Char.newline =
         (if decide (terminated (getlines text) = 0) then None
          else Some (terminated (getlines text)))
     ∧ (∀ c n, read_file (Some text) ∅ !! c = Some n → 1 ≤ n ≤ Int.max))
  ∧ (∀ text pre l post,
     getlines text = pre ++ l :: post → post ≠ [] → l.2 = true)
  ∧ read_file None ∅ = ∅.
Proof.
  split; [|split].
  - intros text Hsize. split_and!.
    + intros c Hc. rewrite lookup_read_file.
      rewrite <- (unlines_getlines text) at 1. rewrite occurrences_unlines.
      rewrite decide_False by done. rewrite Z.add_0_r.
      unfold bump. by case_decide.
    + rewrite lookup_read_file, <- terminated_getlines.
      unfold bump. by case_decide.
    + intros c n. rewrite lookup_read_file. unfold bump.
      case_decide; [done|]. intros [= <-]. simpl.
      pose proof (occurrences_nonneg c text).
      pose proof (occurrences_length c text). lia.
  - intros text pre l post. apply getlines_good.
  - done.
Qed.

(** ** Heaps *)

Lemma Compare_false p c : Compare p c = false ↔ frequency p ≤ frequency c.
Proof. unfold Compare. rewrite bool_decide_eq_false. lia. Qed.

Lemma is_heap_nil : is_heap [].
Proof. by intros i p c _ _ ?. Qed.

(** The first element of a heap has the least frequency. *)
Lemma is_heap_top x v :
  is_heap (x :: v) → Forall (λ y, frequency x ≤ frequency y) v.
Proof.
  intros Hheap.
  assert (∀ i y, (x :: v) !! i = Some y → frequency x ≤ frequency y) as Hall.
  { intros i. induction (lt_wf i) as [i _ IH]. intros y Hy.
    destruct (decide (i = 0)%nat) as [->|Hi]; [by simplify_eq/=|].
    assert ((i - 1) / 2 < i)%nat as Hlt.
    { apply Nat.le_lt_trans with (i - 1)%nat; [|lia].
      apply Nat.Div0.div_le_upper_bound. lia. }
    destruct (lookup_lt_is_Some_2 (x :: v) ((i - 1) / 2)) as [p Hp].
    { apply lookup_lt_Some in Hy. lia. }
    specialize (IH _ Hlt p Hp).
    assert (Compare p y = false) as ?%Compare_false by (apply (Hheap i); [lia|done..]).
    lia. }
  apply Forall_lookup. intros i y Hy. by apply (Hall (S i)).
Qed.

Section priority_queue_facts.
Context `{HeapAlgorithms}.

Lemma pq_push_spec x q :
  is_heap q → is_heap (pq_push x q) ∧ pq_push x q ≡ₚ x :: q.
Proof.
  intros Hq. destruct (push_heap_spec q x Hq) as [? Hp]. split; [done|].
  unfold pq_push. rewrite Hp. symmetry. apply Permutation_cons_append.
Qed.

Lemma pq_pop_spec x v :
  is_heap (x :: v) → is_heap (pq_pop (x :: v)) ∧ pq_pop (x :: v) ≡ₚ v.
Proof.
  intros Hq. destruct (pop_heap_spec x v Hq) as (v' & Hv' & ? & ?).
  unfold pq_pop. rewrite Hv', removelast_last. by split.
Qed.

End priority_queue_facts.

(** ** The sorting library is a heap library *)

Lemma sorted_is_heap v :
  StronglySorted (λ a b, frequency a ≤ frequency b) v → is_heap v.
Proof.
  intros Hs.
  assert (∀ i j a b, (i < j)%nat → v !! i = Some a → v !! j = Some b →
            frequency a ≤ frequency b) as Hle.
  { induction Hs as [|x v Hs IH Hx]; intros i j a b Hij Hi Hj; [done|].
    destruct j as [|j]; [lia|]. destruct i as [|i]; simplify_eq/=.
    - eapply Forall_lookup_1 in Hx; [|done]. done.
    - eapply IH; [|done..]. lia. }
  intros i p c Hi Hp Hc. apply Compare_false.
  apply (Hle ((i - 1) / 2)%nat i); [|done..].
  apply Nat.le_lt_trans with (i - 1)%nat; [|lia].
  apply Nat.Div0.div_le_upper_bound. lia.
Qed.

Lemma SortedHeap_insert_Permutation x v : SortedHeap.insert x v ≡ₚ x :: v.
Proof.
  induction v as [|y v IH]; simpl; [done|].
  destruct (Compare x y); [|done]. by rewrite IH, Permutation_swap.
Qed.

Lemma SortedHeap_sort_Permutation v : SortedHeap.sort v ≡ₚ v.
Proof.
  induction v as [|x v IH]; simpl; [done|].
  by rewrite SortedHeap_insert_Permutation, IH.
Qed.

Lemma SortedHeap_insert_sorted x v :
  StronglySorted (λ a b, frequency a ≤ frequency b) v →
  StronglySorted (λ a b, frequency a ≤ frequency b) (SortedHeap.insert x v).
Proof.
  induction 1 as [|y v Hs IH Hy]; simpl.
  - repeat constructor.
  - destruct (Compare x y) eqn:Hc.
    + constructor; [done|]. rewrite SortedHeap_insert_Permutation.
      constructor; [|done]. unfold Compare in Hc.
      apply bool_decide_eq_true in Hc. lia.
    + apply Compare_false in Hc. constructor; [by constructor|].
      constructor; [done|]. eapply Forall_impl; [done|]. simpl. lia.
Qed.

Lemma SortedHeap_sort_sorted v :
  StronglySorted (λ a b, frequency a ≤ frequency b) (SortedHeap.sort v).
Proof.
  induction v as [|x v IH]; simpl; [constructor|].
  by apply SortedHeap_insert_sorted.
Qed.

#[export] Instance sorted_heap : HeapAlgorithms := {|
  push_heap := SortedHeap.push_heap;
  pop_heap := SortedHeap.pop_heap;
  push_heap_spec v x _ :=
    conj (sorted_is_heap _ (SortedHeap_sort_sorted (v ++ [x])))
         (SortedHeap_sort_Permutation (v ++ [x]));
  pop_heap_spec x v _ :=
    ex_intro _ (SortedHeap.sort v)
      (conj eq_refl
         (conj (sorted_is_heap _ (SortedHeap_sort_sorted v))
               (SortedHeap_sort_Permutation v)))
|}.

(** ** Trees and node structures *)

Lemma frequency_to_node t : frequency (to_node t) = weight t.
Proof. by destruct t. Qed.

Lemma of_to_node t : of_node (to_node t) = t.
Proof. induction t as [|l IHl r IHr]; simpl; [done|]. by rewrite IHl, IHr. Qed.

Lemma well_formed_frequency n : well_formed n → frequency n = weight (of_node n).
Proof. intros Hn. by rewrite <- Hn, frequency_to_node, of_to_node. Qed.

Lemma well_formed_leaf c f : well_formed (Node_new c f).
Proof. done. Qed.

Lemma well_formed_join a b :
  well_formed a → well_formed b →
  well_formed (mkNode (character Node_default) (frequency a + frequency b) (Some b) (Some a)).
Proof.
  intros Ha Hb. unfold well_formed. simpl.
  by rewrite Ha, Hb, <- !well_formed_frequency.
Qed.

(** ** The constructor's loops *)

Lemma huffman_merge_Permutation ts ts' t :
  ts ≡ₚ ts' → huffman_merge ts t → huffman_merge ts' t.
Proof.
  intros Hp Hm. destruct Hm as [t|ts a b rest t Hts Hab Hrest Hm].
  - apply Permutation_singleton_l in Hp as <-. constructor.
  - eapply merge_two; [|done..]. by rewrite <- Hp.
Qed.

Lemma filter_all {A} (P : A → Prop) `{∀ x, Decision (P x)} (l : list A) :
  Forall P l → filter P l = l.
Proof.
  induction 1 as [|x l Hx _ IH]; [done|]. by rewrite filter_cons_True, IH.
Qed.

Section constructor_facts.
Context `{HeapAlgorithms}.

Lemma push_leaves_items items q :
  is_heap q →
  let q' := foldl (λ q it, if bool_decide (it.2 > 0)
                           then pq_push (Node_new it.1 it.2) q else q) q items in
  is_heap q' ∧
  q' ≡ₚ ((λ it, Node_new it.1 it.2) <$> filter (λ it : ascii * Z, it.2 > 0) items) ++ q.
Proof.
  revert q. induction items as [|it items IH]; intros q Hq; simpl; [done|].
  rewrite filter_cons. case_bool_decide as Hit.
  - destruct (pq_push_spec (Node_new it.1 it.2) q Hq) as [Hheap Hperm].
    destruct (IH _ Hheap) as [? IHp]. split; [done|].
    rewrite decide_True by done. simpl in *. rewrite IHp, Hperm.
    by rewrite Permutation_middle.
  - rewrite decide_False by done. by apply IH.
Qed.

(** The first loop makes a heap of one leaf for every entry of the table. *)
Lemma push_leaves_spec m :
  positive_counts m →
  is_heap (push_leaves m []) ∧
  push_leaves m [] ≡ₚ (λ it, Node_new it.1 it.2) <$> map_items m.
Proof.
  intros Hm. destruct (push_leaves_items (map_items m) [] is_heap_nil) as [? Hp].
  split; [done|]. unfold push_leaves. rewrite Hp, app_nil_r.
  rewrite filter_all; [done|].
  apply Forall_forall. intros [c n] Hc%elem_of_map_items. simpl.
  apply Hm in Hc. lia.
Qed.

(** One turn of the second loop. *)
Lemma merge_step_spec q :
  is_heap q → (1 < pq_size q)%nat →
  ∃ a b rest,
    pq_top q = Some a ∧ pq_top (pq_pop q) = Some b ∧
    q ≡ₚ a :: b :: rest ∧
    frequency a ≤ frequency b ∧
    Forall (λ n, frequency b ≤ frequency n) rest ∧
    merge_step q =
      pq_push (mkNode (character Node_default) (frequency a + frequency b)
                 (Some b) (Some a)) (pq_pop (pq_pop q)) ∧
    is_heap (merge_step q) ∧
    merge_step q ≡ₚ
      mkNode (character Node_default) (frequency a + frequency b) (Some b) (Some a)
        :: rest.
Proof.
  intros Hq Hlen. destruct q as [|a v]; [simpl in *; lia|].
  destruct (pq_pop_spec a v Hq) as [Hq1 Hp1].
  pose proof (is_heap_top a v Hq) as Ha.
  destruct (pq_pop (a :: v)) as [|b v1] eqn:E1.
  { apply Permutation_nil_l in Hp1 as <-. simpl in *. lia. }
  destruct (pq_pop_spec b v1 Hq1) as [Hq2 Hp2].
  pose proof (is_heap_top b v1 Hq1) as Hb.
  rewrite <- Hp1 in Ha. apply Forall_cons in Ha as [Hab _].
  set (node := mkNode (character Node_default) (frequency a + frequency b)
                 (Some b) (Some a)).
  destruct (pq_push_spec node (pq_pop (b :: v1)) Hq2) as [Hq3 Hp3].
  assert (merge_step (a :: v) = pq_push node (pq_pop (b :: v1))) as Hstep.
  { unfold merge_step, pq_top. cbn [hd_error]. rewrite E1. done. }
  exists a, b, v1. rewrite Hstep. split_and!; try done.
  - by rewrite Hp1.
  - by rewrite Hp3, Hp2.
Qed.

Lemma merge_step_length q :
  is_heap q → (1 < pq_size q)%nat → S (pq_size (merge_step q)) = pq_size q.
Proof.
  intros Hq Hlen. destruct (merge_step_spec q Hq Hlen) as (a & b & rest & Hs).
  destruct Hs as (_ & _ & Hp & _ & _ & _ & _ & Hp').
  apply Permutation_length in Hp, Hp'. unfold pq_size. by rewrite Hp, Hp'.
Qed.

(** The second loop ends: more fuel than the size of the queue changes
    nothing. *)
Lemma merge_loop_fuel fuel1 fuel2 q :
  is_heap q → (pq_size q ≤ fuel1)%nat → (pq_size q ≤ fuel2)%nat →
  merge_loop fuel1 q = merge_loop fuel2 q.
Proof.
  revert fuel2 q. induction fuel1 as [|fuel1 IH]; intros fuel2 q Hq H1 H2.
  - destruct fuel2; [done|]. simpl. by rewrite bool_decide_eq_false_2 by lia.
  - simpl. case_bool_decide as Hlen.
    + destruct fuel2 as [|fuel2]; [lia|]. simpl.
      rewrite bool_decide_eq_true_2 by done.
      pose proof (merge_step_length q Hq Hlen).
      destruct (merge_step_spec q Hq Hlen) as (a & b & rest & Hs).
      destruct Hs as (_ & _ & _ & _ & _ & _ & ? & _).
      apply IH; [done|lia..].
    + destruct fuel2; [done|]. simpl. by rewrite bool_decide_eq_false_2.
Qed.

(** The second loop carries out Huffman's algorithm and leaves one node. *)
Lemma merge_loop_spec fuel q :
  is_heap q → Forall well_formed q → q ≠ [] → (pq_size q ≤ fuel)%nat →
  ∃ root, merge_loop fuel q = [root] ∧ well_formed root ∧
          huffman_merge (of_node <$> q) (of_node root).
Proof.
  revert q. induction fuel as [|fuel IH]; intros q Hq Hwf Hne Hfuel.
  { destruct q; [done|simpl in *; lia]. }
  simpl. case_bool_decide as Hlen.
  - pose proof (merge_step_length q Hq Hlen) as Hlen'.
    destruct (merge_step_spec q Hq Hlen)
      as (a & b & rest & _ & _ & Hp & Hab & Hrest & _ & Hheap & Hp').
    rewrite Hp in Hwf. apply Forall_cons in Hwf as [Ha Hwf].
    apply Forall_cons in Hwf as [Hb Hwf].
    destruct (IH (merge_step q)) as (root & Hroot & Hwfr & Hm).
    + done.
    + rewrite Hp'. constructor; [by apply well_formed_join|done].
    + intros Hnil. rewrite Hnil in Hp'. by apply Permutation_nil_cons in Hp'.
    + lia.
    + exists root. split_and!; [done..|].
      eapply (merge_two _ (of_node a) (of_node b) (of_node <$> rest)).
      * by rewrite Hp.
      * by rewrite <- !well_formed_frequency.
      * apply Forall_fmap, Forall_forall. intros n Hn.
        rewrite Forall_forall in Hwf, Hrest.
        specialize (Hwf n Hn). specialize (Hrest n Hn). simpl.
        by rewrite <- !well_formed_frequency.
      * eapply huffman_merge_Permutation; [|done]. by rewrite Hp'.
  - destruct q as [|root [|??]]; [done| |simpl in *; lia].
    exists root. apply Forall_cons in Hwf as [? _]. split_and!; [done..|]. constructor.
Qed.
End constructor_facts.

(** ** [encode] *)

Lemma encode_line_spec_eq t line encoded :
  encode_line t line encoded =
    if all_coded t line then Some (encoded +:+ encode_text t line) else None.
Proof.
  revert encoded. induction line as [|c line IH]; intros encoded; simpl.
  - by rewrite append_nil_r.
  - unfold get_character_code. destruct (encoded_chars t !! c) as [code|] eqn:E.
    + rewrite bool_decide_eq_true_2 by eauto. simpl. rewrite IH.
      by rewrite append_assoc.
    + rewrite bool_decide_eq_false_2; [done|]. by intros [? ?].
Qed.

Lemma encode_lines_spec t lines encoded :
  encode_lines t lines encoded =
    if forallb (line_coded t) lines
    then encoded +:+ foldr (λ l s, encode_line_spec t l +:+ s) "" lines
    else "".
Proof.
  revert encoded. induction lines as [|[line good] lines IH]; intros encoded.
  - simpl. by rewrite append_nil_r.
  - cbn [encode_lines forallb foldr]. rewrite encode_line_spec_eq.
    set (ok := forallb (line_coded t) lines) in *.
    set (tail := foldr (λ l s, encode_line_spec t l +:+ s) "" lines) in *.
    clearbody ok tail. unfold line_coded, encode_line_spec. cbn [fst snd].
    destruct (all_coded t line); cbn [andb]; [|done].
    destruct good.
    + unfold get_character_code.
      destruct (encoded_chars t !! Char.newline) as [code|] eqn:E.
      * rewrite bool_decide_eq_true_2 by eauto. rewrite IH.
        destruct ok; [|done]. by rewrite !append_assoc.
      * rewrite bool_decide_eq_false_2; [done|]. by intros [? ?].
    + rewrite IH. destruct ok; [|done].
      by rewrite append_nil_r, append_assoc.
Qed.

Lemma all_coded_append t s1 s2 :
  all_coded t (s1 +:+ s2) = all_coded t s1 && all_coded t s2.
Proof. induction s1 as [|c s1 IH]; simpl; [done|]. by rewrite IH, andb_assoc. Qed.

Lemma encode_text_append t s1 s2 :
  encode_text t (s1 +:+ s2) = encode_text t s1 +:+ encode_text t s2.
Proof. induction s1 as [|c s1 IH]; simpl; [done|]. by rewrite IH, append_assoc. Qed.

Lemma all_coded_unlines t lines :
  all_coded t (unlines lines) = forallb (line_coded t) lines.
Proof.
  induction lines as [|[line good] lines IH]; [done|].
  simpl. rewrite all_coded_append. unfold line_coded. simpl.
  destruct good; simpl; rewrite IH, <-?andb_assoc; [done|].
  by rewrite andb_true_l.
Qed.

Lemma encode_text_unlines t lines :
  encode_text t (unlines lines) = foldr (λ l s, encode_line_spec t l +:+ s) "" lines.
Proof.
  induction lines as [|[line good] lines IH]; [done|].
  simpl. rewrite encode_text_append. unfold encode_line_spec. simpl.
  destruct good; simpl; rewrite IH.
  - by rewrite append_assoc.
  - by rewrite append_nil_r.
Qed.

(** [encode] gives the codes of all the characters of the text, line
    terminators included, when all of them have codes. *)
Lemma encode_text_spec t text :
  encode t (Some text) = if all_coded t text then encode_text t text else "".
Proof.
  unfold encode. rewrite encode_lines_spec.
  by rewrite <- all_coded_unlines, <- encode_text_unlines, unlines_getlines.
Qed.

(** C5. [encode] is all or nothing: when a character of a line has no
    entry in the code table, or a line was ended by a terminator and the
    terminator has none, the result is empty, as it is for a file that
    cannot be opened; otherwise it is the codes of the characters in the
    order of the input, with the code of the terminator after every line
    that was ended by one. *)
Theorem encode_all_or_nothing t :
  (∀ text,
     encode t (Some text) =
       if forallb (line_coded t) (getlines text)
       then foldr (λ l s, encode_line_spec t l +:+ s) "" (getlines text)
       else "")
  ∧ encode t None = "".
Proof. split; [|done]. intros text. unfold encode. by rewrite encode_lines_spec. Qed.

(** ** Leaves and their codes *)

Lemma leaves_inner l r : leaves (Inner l r) = leaves l ++ leaves r.
Proof.
  unfold leaves. simpl. rewrite fmap_app, <- !list_fmap_compose. done.
Qed.

Lemma find_code_app c l1 l2 :
  find_code c (l1 ++ l2) =
    match find_code c l1 with Some s => Some s | None => find_code c l2 end.
Proof. induction l1 as [|x l1 IH]; simpl; [done|]. by case_decide. Qed.

Lemma find_code_fmap c b l :
  find_code c ((λ x, (x.1, String b x.2)) <$> l) = String b <$> find_code c l.
Proof. induction l as [|x l IH]; simpl; [done|]. by case_decide. Qed.

Lemma find_code_Some c l s : find_code c l = Some s → ∃ f, (c, f, s) ∈ l.
Proof.
  induction l as [|[[c' f] s'] l IH]; simpl; [done|]. case_decide.
  - intros [= <-]. subst. exists f. by left.
  - intros [f' ?]%IH. exists f'. by right.
Qed.

Lemma find_code_elem c f s l :
  NoDup l.*1.*1 → (c, f, s) ∈ l → find_code c l = Some s.
Proof.
  induction l as [|[[c' f'] s'] l IH]; simpl.
  - by intros _ ?%elem_of_nil.
  - intros [Hc' Hl]%NoDup_cons [Heq|Hin]%elem_of_cons.
    + simplify_eq. by rewrite decide_True.
    + case_decide; [|by apply IH]. subst. destruct Hc'.
      apply list_elem_of_fmap. exists (c, f). split; [done|].
      apply list_elem_of_fmap. by exists (c, f, s).
Qed.

(** ** [encode_characters] *)

Lemma encode_characters_leaf code c f m :
  encode_characters code (to_node (Leaf c f)) m =
    if bool_decide (Char.to_Z c >= 0) then emplace c code m else m.
Proof. simpl. by case_bool_decide. Qed.

Lemma encode_characters_inner code l r m :
  encode_characters code (to_node (Inner l r)) m =
    encode_characters (code +:+ "1") (to_node r)
      (encode_characters (code +:+ "0") (to_node l) m).
Proof. done. Qed.

(** The table after [encode_characters]: old entries stay, and every leaf
    whose character is not negative and has no entry yet gets the bits on
    the way to it. *)
Lemma encode_characters_spec t code m c :
  encode_characters code (to_node t) m !! c =
    match m !! c with
    | Some s => Some s
    | None =>
        if bool_decide (Char.to_Z c >= 0)
        then (λ s, code +:+ s) <$> find_code c (coded t)
        else None
    end.
Proof.
  revert code m. induction t as [c' f|l IHl r IHr]; intros code m.
  - rewrite encode_characters_leaf. simpl. case_bool_decide as Hc'.
    + rewrite lookup_emplace. destruct (decide (c' = c)) as [->|Hne].
      * rewrite bool_decide_eq_true_2 by done. simpl.
        destruct (m !! c); simpl; [done|]. by rewrite append_nil_r.
      * destruct (m !! c); [done|]. by case_bool_decide.
    + destruct (m !! c); [done|]. case_bool_decide; [|done].
      destruct (decide (c' = c)) as [->|Hne]; [done|]. done.
  - rewrite encode_characters_inner, IHr, IHl. destruct (m !! c); [done|].
    case_bool_decide; [|done]. simpl.
    rewrite find_code_app, !find_code_fmap.
    destruct (find_code c (coded l)); simpl.
    + by rewrite append_assoc.
    + destruct (find_code c (coded r)); simpl; [|done]. by rewrite append_assoc.
Qed.

(** ** Properties of Huffman's algorithm *)

Lemma sum_with_app {A} (f : A → Z) l1 l2 :
  sum_with f (l1 ++ l2) = sum_with f l1 + sum_with f l2.
Proof. induction l1 as [|x l1 IH]; simpl; [done|]. rewrite IH. lia. Qed.

#[export] Instance sum_with_Permutation {A} (f : A → Z) :
  Proper ((≡ₚ) ==> (=)) (sum_with f).
Proof. induction 1; simpl; lia. Qed.

Lemma sum_with_fmap {A B} (g : A → B) (f : B → Z) l :
  sum_with f (g <$> l) = sum_with (f ∘ g) l.
Proof. induction l as [|x l IH]; simpl; [done|]. by f_equal. Qed.

Lemma sum_with_le {A} (f g : A → Z) l :
  (∀ x, x ∈ l → f x ≤ g x) → sum_with f l ≤ sum_with g l.
Proof.
  induction l as [|x l IH]; intros Hfg; simpl; [done|].
  pose proof (Hfg x ltac:(by left)).
  assert (sum_with f l ≤ sum_with g l); [|lia].
  apply IH. intros y ?. apply Hfg. by right.
Qed.

Lemma sum_with_ext {A} (f g : A → Z) l :
  (∀ x, x ∈ l → f x = g x) → sum_with f l = sum_with g l.
Proof.
  intros Hfg. apply Z.le_antisymm; apply sum_with_le; intros x Hx;
    rewrite (Hfg x Hx); done.
Qed.

Lemma sum_with_add {A} (f g : A → Z) l :
  sum_with (λ x, f x + g x) l = sum_with f l + sum_with g l.
Proof. induction l as [|x l IH]; simpl; [done|]. rewrite IH. lia. Qed.

Lemma sum_with_nonneg {A} (f : A → Z) l : (∀ x, x ∈ l → 0 ≤ f x) → 0 ≤ sum_with f l.
Proof.
  induction l as [|x l IH]; intros Hf; simpl; [done|].
  pose proof (Hf x ltac:(by left)).
  assert (0 ≤ sum_with f l); [|lia]. apply IH. intros y ?. apply Hf. by right.
Qed.

Lemma huffman_merge_leaves ts t : huffman_merge ts t → leaves t ≡ₚ ts ≫= leaves.
Proof.
  induction 1 as [t|ts a b rest t Hts Hab Hrest _ IH]; simpl.
  - by rewrite app_nil_r.
  - rewrite IH, Hts. simpl. by rewrite leaves_inner, app_assoc.
Qed.

Lemma huffman_merge_weight ts t : huffman_merge ts t → weight t = sum_with weight ts.
Proof.
  induction 1 as [t|ts a b rest t Hts Hab Hrest _ IH]; simpl; [lia|].
  rewrite IH, Hts. simpl. lia.
Qed.

Lemma huffman_merge_shape ts t :
  huffman_merge ts t → (∃ l r, t = Inner l r) ∨ ts = [t].
Proof.
  induction 1 as [t|ts a b rest t Hts Hab Hrest _ IH]; [by right|].
  left. destruct IH as [?|[= <- _]]; eauto.
Qed.

Lemma huffman_merge_inner ts t :
  huffman_merge ts t → (1 < length ts)%nat → ∃ l r, t = Inner l r.
Proof.
  intros [?| ->]%huffman_merge_shape; [done|]. simpl. lia.
Qed.

(** ** Sums over the alphabet *)

Lemma sum_with_zero {A} (l : list A) : sum_with (λ _, 0) l = 0.
Proof. induction l as [|x l IH]; simpl; [done|]. by rewrite IH. Qed.

Lemma sum_indicator (L : ascii → Z) (x : ascii) (l : list ascii) :
  NoDup l →
  sum_with (λ c, (if decide (c = x) then 1 else 0) * L c) l =
    if decide (x ∈ l) then L x else 0.
Proof.
  induction 1 as [|c l Hc _ IH]; simpl.
  - by destruct (decide (x ∈ [])) as [?%elem_of_nil|].
  - rewrite IH. destruct (decide (c = x)) as [->|Hne].
    + rewrite decide_False by done. rewrite decide_True by (by left). lia.
    + destruct (decide (x ∈ l)) as [Hin|Hin].
      * rewrite decide_True by (by right). lia.
      * rewrite decide_False; [lia|]. rewrite not_elem_of_cons. by split.
Qed.

(** Summing over the alphabet, each character weighted by the number of
    its occurrences, is summing over the text. *)
Lemma sum_occurrences (L : ascii → Z) (text : string) :
  sum_with (λ c, occurrences c text * L c) Char.all = sum_text L text.
Proof.
  induction text as [|x text IH]; cbn [occurrences sum_text].
  - rewrite (sum_with_ext _ (λ _, 0)) by (intros; lia). apply sum_with_zero.
  - rewrite <- IH.
    rewrite (sum_with_ext _ (λ c, (if decide (c = x) then 1 else 0) * L c
                                  + occurrences c text * L c)) by (intros; lia).
    rewrite sum_with_add, sum_indicator by apply Char_all_NoDup.
    by rewrite decide_True by apply Char_all_complete.
Qed.

Lemma sum_map_items (m : gmap ascii Z) (L : ascii → Z) :
  sum_with (λ it, it.2 * L it.1) (map_items m) =
  sum_with (λ c, default 0 (m !! c) * L c) Char.all.
Proof.
  unfold map_items. induction Char.all as [|c l IH]; simpl; [done|].
  destruct (m !! c) as [n|]; simpl.
  - f_equal. exact IH.
  - rewrite Z.add_0_l. exact IH.
Qed.

Lemma read_file_count text c :
  default 0 (read_file (Some text) ∅ !! c) = occurrences c text.
Proof. rewrite lookup_read_file. unfold bump. case_decide; simpl; lia. Qed.

(** A sum over the frequency table of a text is a sum over the text. *)
Lemma sum_read_file (L : ascii → Z) (text : string) :
  sum_with (λ it, it.2 * L it.1) (map_items (read_file (Some text) ∅)) =
  sum_text L text.
Proof.
  rewrite sum_map_items, <- sum_occurrences. apply sum_with_ext.
  intros c _. by rewrite read_file_count.
Qed.

Lemma sum_text_length text : sum_text (λ _, 1) text = Z.of_nat (String.length text).
Proof. induction text as [|c text IH]; simpl String.length; simpl; lia. Qed.

(** The counts of the table of a file add up to its size. *)
Lemma read_file_sum file :
  sum_with snd (map_items (read_file file ∅)) = file_size file.
Proof.
  destruct file as [text|]; cbn [file_size read_file].
  - rewrite <- sum_text_length, <- sum_read_file.
    apply sum_with_ext. intros it _. lia.
  - by rewrite map_items_empty.
Qed.

(** No count of the table of a file of at most [Int.max] characters is
    beyond [Int.max]. *)
Lemma read_file_fits file c n :
  file_size file ≤ Int.max → read_file file ∅ !! c = Some n → 1 ≤ n ≤ Int.max.
Proof.
  destruct file as [text|]; [|done]. cbn [file_size].
  rewrite lookup_read_file. unfold bump. intros Hsize.
  case_decide; [done|]. intros [= <-]. simpl.
  pose proof (occurrences_nonneg c text).
  pose proof (occurrences_length c text). lia.
Qed.

Lemma sum_with_pos {A} (f : A → Z) l :
  l ≠ [] → (∀ x, x ∈ l → 0 < f x) → 0 < sum_with f l.
Proof.
  destruct l as [|x l]; [done|]. intros _ Hf. simpl.
  pose proof (Hf x ltac:(by left)).
  assert (0 ≤ sum_with f l); [|lia].
  apply sum_with_nonneg. intros y Hy. pose proof (Hf y ltac:(by right)). lia.
Qed.

(** ** The constructor *)

Lemma leaf_forest_leaves m : leaf_forest m ≫= leaves = map_items m.
Proof.
  unfold leaf_forest. induction (map_items m) as [|[c f] items IH]; [done|].
  by rewrite fmap_cons, bind_cons, IH.
Qed.

Lemma leaf_forest_length m : length (leaf_forest m) = size m.
Proof. unfold leaf_forest. by rewrite length_fmap, length_map_items. Qed.

Lemma leaf_forest_weight m : sum_with weight (leaf_forest m) = sum_with snd (map_items m).
Proof. unfold leaf_forest. by rewrite sum_with_fmap. Qed.

Lemma leaf_forest_wpl m : sum_with wpl (leaf_forest m) = 0.
Proof.
  unfold leaf_forest. rewrite sum_with_fmap.
  induction (map_items m) as [|it items IH]; [done|]. simpl. by rewrite IH.
Qed.

Section build_facts.
Context `{HeapAlgorithms}.

Lemma build_frequencies m : frequencies (build m) = m.
Proof. done. Qed.

(** Nothing was counted: no tree, no codes. *)
Lemma build_empty m :
  size m = 0%nat → node_queue (build m) = [] ∧ encoded_chars (build m) = ∅.
Proof.
  intros Hm. pose proof Hm as ->%map_size_empty_inv.
  unfold build, push_leaves. by rewrite map_items_empty.
Qed.

(** Something was counted: the queue is left with the root of a tree that
    Huffman's algorithm makes of the leaves, and the code table is filled
    from that tree, or with ["0"] for the only character. *)
Lemma build_spec m :
  positive_counts m → size m ≠ 0%nat →
  ∃ T, huffman_merge (leaf_forest m) T ∧
       node_queue (build m) = [to_node T] ∧
       encoded_chars (build m) =
         if bool_decide (size m = 1%nat)
         then match map_items m with
              | it :: _ => {[ it.1 := "0" ]}
              | [] => ∅
              end
         else encode_characters "" (to_node T) ∅.
Proof.
  intros Hpos Hsize. destruct (push_leaves_spec m Hpos) as [Hheap Hperm].
  assert (Forall well_formed (push_leaves m [])) as Hwf.
  { rewrite Hperm. apply Forall_fmap, Forall_true. intros it. apply well_formed_leaf. }
  assert (pq_size (push_leaves m []) = size m) as Hlen.
  { unfold pq_size. by rewrite Hperm, length_fmap, length_map_items. }
  destruct (merge_loop_spec (pq_size (push_leaves m [])) (push_leaves m []))
    as (root & Hroot & Hwfr & Hm); [done..| |lia|].
  { intros Hnil. rewrite Hnil in Hlen. simpl in Hlen. lia. }
  exists (of_node root). rewrite Hwfr. split_and!.
  - eapply huffman_merge_Permutation; [|done]. rewrite Hperm.
    unfold leaf_forest. by rewrite <- list_fmap_compose.
  - unfold build. simpl. by rewrite Hroot.
  - unfold build. simpl. rewrite Hroot. simpl. case_bool_decide; simpl; [|done].
    destruct (map_items m) as [|it items]; [done|].
    unfold emplace. by rewrite lookup_empty, insert_empty.
Qed.
End build_facts.

(** C10. After construction from a file of at most [Int.max] characters
    the queue holds exactly one node, the root of the tree, whose frequency
    is the sum of all the counts of the frequency table, a value from 1 to
    [Int.max], when at least one symbol was counted; it is empty when none
    was. *)
Theorem queue_after_construction `{HeapAlgorithms} (file : option string) :
  let t := construct file in
  file_size file ≤ Int.max →
  if decide (size (frequencies t) = 0%nat) then node_queue t = []
  else ∃ root, node_queue t = [root] ∧
               frequency root = sum_with snd (map_items (frequencies t)) ∧
               1 ≤ frequency root ≤ Int.max.
Proof.
  intros t Hsize. subst t. unfold construct. rewrite build_frequencies.
  case_decide as Hzero.
  - by apply build_empty.
  - destruct (build_spec (read_file file ∅)) as (T & Hm & Hq & _);
      [apply read_file_positive|done|].
    exists (to_node T).
    assert (frequency (to_node T) = sum_with snd (map_items (read_file file ∅)))
      as Hroot.
    { by rewrite frequency_to_node, (huffman_merge_weight _ _ Hm), leaf_forest_weight. }
    split_and!; [done..| |].
    + rewrite Hroot.
      assert (0 < sum_with snd (map_items (read_file file ∅))); [|lia].
      apply sum_with_pos.
      * intros Hnil. apply (f_equal length) in Hnil.
        rewrite length_map_items in Hnil. simpl in Hnil. lia.
      * intros [c n] Hc%elem_of_map_items. by apply (read_file_positive file c).
    + by rewrite Hroot, read_file_sum.
Qed.

Section merge_loop_facts.
Context `{HeapAlgorithms}.

(** The loop makes one turn less than the queue has nodes. *)
Lemma merge_loop_iter fuel q :
  is_heap q → (pq_size q ≤ fuel)%nat →
  merge_loop fuel q = Nat.iter (pq_size q - 1) merge_step q.
Proof.
  revert q. induction fuel as [|fuel IH]; intros q Hq Hfuel.
  { destruct q; [done|simpl in *; lia]. }
  cbn [merge_loop]. case_bool_decide as Hlen.
  - pose proof (merge_step_length q Hq Hlen) as Hlen'.
    destruct (merge_step_spec q Hq Hlen) as (a & b & rest & Hs).
    destruct Hs as (_ & _ & _ & _ & _ & _ & Hheap & _).
    rewrite IH by (done || lia).
    replace (pq_size q - 1)%nat with (S (pq_size (merge_step q) - 1)) by lia.
    by rewrite Nat.iter_succ_r.
  - by replace (pq_size q - 1)%nat with 0%nat by lia.
Qed.

(** The queue after [k] turns: a heap, [k] nodes shorter, with the same
    total frequency. *)
Lemma merge_iter_spec k q :
  is_heap q → Forall (λ n, 0 ≤ frequency n) q → (k < pq_size q)%nat →
  is_heap (Nat.iter k merge_step q) ∧
  pq_size (Nat.iter k merge_step q) = (pq_size q - k)%nat ∧
  Forall (λ n, 0 ≤ frequency n) (Nat.iter k merge_step q) ∧
  sum_with frequency (Nat.iter k merge_step q) = sum_with frequency q.
Proof.
  intros Hq Hpos. induction k as [|k IH]; intros Hk.
  { cbn [Nat.iter nat_rect]. split_and!; [done|lia|done..]. }
  destruct IH as (Hheap & Hlen & Hnn & Hsum); [lia|].
  change (Nat.iter (S k) merge_step q) with (merge_step (Nat.iter k merge_step q)).
  set (qk := Nat.iter k merge_step q) in *.
  assert (1 < pq_size qk)%nat as Hlen1 by lia.
  destruct (merge_step_spec qk Hheap Hlen1)
    as (a & b & rest & _ & _ & Hp & _ & _ & _ & Hheap' & Hp').
  rewrite Hp in Hnn, Hsum.
  apply Forall_cons in Hnn as [Ha [Hb Hr]%Forall_cons].
  split_and!.
  - done.
  - pose proof (merge_step_length qk Hheap Hlen1). lia.
  - rewrite Hp'. constructor; [simpl; lia|done].
  - rewrite Hp', <- Hsum. simpl. lia.
Qed.
End merge_loop_facts.

(** C7. On a queue of nodes whose frequencies are not negative and add up
    to at most [Int.max], so that every sum of two frequencies is the sum
    the [int]s give: the loop makes one turn for each node but one. Each
    turn finds more than one node in the queue, takes out the two nodes of
    least frequency, A first and then B, A's frequency being at most B's
    and B's at most that of every node left, and puts in a new inner node
    with frequency A.frequency + B.frequency, left child A and right child
    B. After the last turn exactly one node is in the queue, the root; its
    frequency is the sum of the frequencies of the nodes the loop started
    with, and when these nodes are trees, the root is the tree that
    Huffman's algorithm ([huffman_merge]) makes of them. *)
Theorem merge_loop_correct `{HeapAlgorithms} (q : list Node) :
  is_heap q → q ≠ [] →
  Forall (λ n, 0 ≤ frequency n) q → sum_with frequency q ≤ Int.max →
  (∀ k, (S k < pq_size q)%nat →
     let qk := Nat.iter k merge_step q in
     ∃ A B rest,
       (1 < pq_size qk)%nat ∧
       pq_top qk = Some A ∧ pq_top (pq_pop qk) = Some B ∧
       qk ≡ₚ A :: B :: rest ∧
       frequency A ≤ frequency B ∧
       Forall (λ n, frequency B ≤ frequency n) rest ∧
       0 ≤ frequency A + frequency B ≤ Int.max ∧
       Nat.iter (S k) merge_step q =
         pq_push (mkNode (character Node_default) (frequency A + frequency B)
                    (Some B) (Some A)) (pq_pop (pq_pop qk)) ∧
       Nat.iter (S k) merge_step q ≡ₚ
         mkNode (character Node_default) (frequency A + frequency B) (Some B) (Some A)
           :: rest)
  ∧ ∃ root,
      (∀ fuel, (pq_size q ≤ fuel)%nat → merge_loop fuel q = [root]) ∧
      Nat.iter (pq_size q - 1) merge_step q = [root] ∧
      frequency root = sum_with frequency q ∧
      (Forall well_formed q →
       well_formed root ∧ huffman_merge (of_node <$> q) (of_node root)).
Proof.
  intros Hq Hne Hpos Hmax. split.
  - intros k Hk qk.
    destruct (merge_iter_spec k q Hq Hpos) as (Hheap & Hlen & Hnn & Hsum); [lia|].
    assert (1 < pq_size qk)%nat as Hlen1 by (subst qk; lia).
    destruct (merge_step_spec qk Hheap Hlen1)
      as (A & B & rest & Htop & Htop' & Hp & Hab & Hrest & Hstep & _ & Hp').
    exists A, B, rest. split_and!; try done.
    + fold qk in Hnn. rewrite Hp in Hnn. apply Forall_cons in Hnn as [HA [HB _]%Forall_cons].
      lia.
    + fold qk in Hnn, Hsum. rewrite Hp in Hnn, Hsum.
      apply Forall_cons in Hnn as [HA [HB Hr]%Forall_cons].
      assert (0 ≤ sum_with frequency rest).
      { apply sum_with_nonneg. intros n Hn. by apply (proj1 (Forall_forall _ _) Hr). }
      simpl in Hsum. lia.
  - assert (0 < pq_size q)%nat as Hlen0 by (destruct q; [done|simpl; lia]).
    destruct (merge_iter_spec (pq_size q - 1) q Hq Hpos) as (_ & Hlen & _ & Hsum); [lia|].
    destruct (Nat.iter (pq_size q - 1) merge_step q) as [|root [|??]] eqn:Hiter;
      [simpl in Hlen; lia| |simpl in Hlen; lia].
    assert (∀ fuel, (pq_size q ≤ fuel)%nat → merge_loop fuel q = [root]) as Hloop.
    { intros fuel Hfuel. by rewrite merge_loop_iter. }
    exists root. split_and!; [done..|simpl in Hsum; lia|].
    intros Hwf.
    destruct (merge_loop_spec (pq_size q) q Hq Hwf Hne) as (root' & Hroot' & Htree);
      [done|].
    rewrite Hloop in Hroot' by done. by injection Hroot' as <-.
Qed.

(** ** The codes of a tree *)

Lemma elem_of_coded_inner l r x :
  x ∈ coded (Inner l r) ↔
    (∃ y, y ∈ coded l ∧ x = (y.1, String "0" y.2)) ∨
    (∃ y, y ∈ coded r ∧ x = (y.1, String "1" y.2)).
Proof.
  simpl. rewrite elem_of_app, !list_elem_of_fmap.
  split; (intros [(y & ? & ?)|(y & ? & ?)]; [left|right]; by exists y).
Qed.

Lemma coded_binary t x : x ∈ coded t → binary x.2 = true.
Proof.
  revert x. induction t as [c f|l IHl r IHr]; intros x.
  - by intros ->%list_elem_of_singleton.
  - intros [(y & Hy & ->)|(y & Hy & ->)]%elem_of_coded_inner; simpl; eauto.
Qed.

Lemma coded_nonempty l r x : x ∈ coded (Inner l r) → x.2 ≠ "".
Proof. by intros [(y & Hy & ->)|(y & Hy & ->)]%elem_of_coded_inner. Qed.

(** No leaf lies on the way to another. *)
Lemma coded_prefix t x1 x2 :
  x1 ∈ coded t → x2 ∈ coded t → String.prefix x1.2 x2.2 = true → x1 = x2.
Proof.
  revert x1 x2. induction t as [c f|l IHl r IHr]; intros x1 x2.
  - by intros ->%list_elem_of_singleton ->%list_elem_of_singleton.
  - intros [(y1 & Hy1 & ->)|(y1 & Hy1 & ->)]%elem_of_coded_inner
           [(y2 & Hy2 & ->)|(y2 & Hy2 & ->)]%elem_of_coded_inner; simpl;
      try done; intros Hp.
    + by rewrite (IHl y1 y2).
    + by rewrite (IHr y1 y2).
Qed.

Lemma lookup_code_table T c s :
  encode_characters "" (to_node T) ∅ !! c = Some s ↔
    Char.to_Z c >= 0 ∧ find_code c (coded T) = Some s.
Proof.
  rewrite encode_characters_spec, lookup_empty. case_bool_decide as Hc.
  - destruct (find_code c (coded T)) as [s'|]; simpl.
    + split; [by intros [= <-]|by intros [_ [= <-]]].
    + split; [done|by intros [_ ?]].
  - split; [done|]. by intros [? _].
Qed.

Lemma map_items_singleton {V} (m : gmap ascii V) :
  size m = 1%nat → ∃ c v, map_items m = [(c, v)] ∧ m !! c = Some v.
Proof.
  rewrite <- length_map_items. intros Hlen.
  destruct (map_items m) as [|[c v] [|??]] eqn:E; simplify_eq/=.
  exists c, v. split; [done|]. apply elem_of_map_items. rewrite E. by left.
Qed.

(** The codes of the table are non-empty bit strings, none a prefix of the
    code of another symbol. *)
Lemma build_codes `{HeapAlgorithms} (m : gmap ascii Z) :
  positive_counts m →
  (∀ c s, encoded_chars (build m) !! c = Some s → s ≠ "" ∧ binary s = true)
  ∧ (∀ c1 c2 s1 s2,
       c1 ≠ c2 →
       encoded_chars (build m) !! c1 = Some s1 →
       encoded_chars (build m) !! c2 = Some s2 →
       String.prefix s1 s2 = false ∧ String.prefix s2 s1 = false).
Proof.
  intros Hpos.
  destruct (decide (size m = 0%nat)) as [Hsize|Hsize].
  { destruct (build_empty m Hsize) as [_ ->]. by split; intros *; rewrite ?lookup_empty. }
  destruct (build_spec m) as (T & Hm & _ & ->); [done..|].
  case_bool_decide as Hone.
  - destruct (map_items_singleton m Hone) as (c & n & -> & _). simpl.
    split; intros *.
    + by intros [_ <-]%lookup_singleton_Some.
    + intros Hne [<- _]%lookup_singleton_Some [<- _]%lookup_singleton_Some. done.
  - destruct (huffman_merge_inner _ _ Hm) as (l & r & ->).
    { rewrite leaf_forest_length. lia. }
    split; intros *.
    + intros [_ (f & Hin)%find_code_Some]%lookup_code_table. split.
      * by apply (coded_nonempty _ _ _ Hin).
      * by apply (coded_binary _ _ Hin).
    + intros Hne [_ (f1 & Hin1)%find_code_Some]%lookup_code_table
                 [_ (f2 & Hin2)%find_code_Some]%lookup_code_table.
      split; apply not_true_is_false; intros Hp.
      * apply (coded_prefix _ _ _ Hin1 Hin2) in Hp. congruence.
      * apply (coded_prefix _ _ _ Hin2 Hin1) in Hp. congruence.
Qed.

(** Every symbol of the table gets a code, unless its character value is
    negative and it is not the only symbol. *)
Lemma build_codes_complete `{HeapAlgorithms} (m : gmap ascii Z) (c : ascii) :
  positive_counts m → is_Some (m !! c) →
  size m = 1%nat ∨ Char.to_Z c >= 0 →
  is_Some (encoded_chars (build m) !! c).
Proof.
  intros Hpos [n Hc] Hcase.
  assert (size m ≠ 0%nat) as Hsize.
  { intros ->%map_size_empty_inv. by rewrite lookup_empty in Hc. }
  destruct (build_spec m) as (T & Hm & _ & ->); [done..|].
  case_bool_decide as Hone.
  - destruct (map_items_singleton m Hone) as (c' & n' & Hitems & _).
    rewrite Hitems. simpl. apply elem_of_map_items in Hc. rewrite Hitems in Hc.
    apply list_elem_of_singleton in Hc as [= -> ->]. by rewrite lookup_singleton_eq.
  - destruct Hcase as [?|Hnonneg]; [done|].
    pose proof (huffman_merge_leaves _ _ Hm) as Hleaves.
    rewrite leaf_forest_leaves in Hleaves.
    assert ((c, n) ∈ leaves T) as ([[c' n'] s] & [= <- <-] & Hin)%list_elem_of_fmap.
    { rewrite Hleaves. by apply elem_of_map_items. }
    exists s. apply lookup_code_table. split; [done|].
    apply (find_code_elem c n); [|done].
    change ((coded T).*1.*1) with ((leaves T).*1). rewrite Hleaves.
    apply NoDup_map_items_fst.
Qed.

(** C3. After construction every code in the code table is a non-empty
    string of the digits ['0'] and ['1'], and of two different symbols of
    the table neither has a code that is a prefix of the other's. *)
Theorem code_table_prefix_free `{HeapAlgorithms} (file : option string) :
  let t := construct file in
  (∀ c s, encoded_chars t !! c = Some s → s ≠ "" ∧ binary s = true)
  ∧ (∀ c1 c2 s1 s2,
       c1 ≠ c2 → encoded_chars t !! c1 = Some s1 → encoded_chars t !! c2 = Some s2 →
       String.prefix s1 s2 = false ∧ String.prefix s2 s1 = false).
Proof. apply build_codes, read_file_positive. Qed.

(** C4. When exactly one symbol was counted, its code is ["0"], and
    [decode] turns ["000"] into three copies of it. *)
Theorem single_symbol `{HeapAlgorithms} (file : option string) (c : ascii) :
  let t := construct file in
  size (frequencies t) = 1%nat → is_Some (frequencies t !! c) →
  get_character_code t c = "0" ∧
  decode t "000" = Some (String c (String c (String c ""))).
Proof.
  intros t. subst t. unfold construct. rewrite build_frequencies.
  set (m := read_file file ∅). intros Hone [n Hc].
  destruct (map_items_singleton m Hone) as (c' & n' & Hitems & _).
  assert (c' = c) as ->.
  { apply elem_of_map_items in Hc. rewrite Hitems in Hc.
    by apply list_elem_of_singleton in Hc as [= ->]. }
  destruct (build_spec m) as (T & _ & _ & Htable); [apply read_file_positive|lia|].
  rewrite bool_decide_eq_true_2, Hitems in Htable by done. split.
  - unfold get_character_code. rewrite Htable. simpl. by rewrite lookup_singleton_eq.
  - unfold decode. rewrite build_frequencies.
    rewrite bool_decide_eq_false_2 by lia. rewrite bool_decide_eq_true_2 by done.
    rewrite Hitems. simpl. done.
Qed.

(** ** [decode]: the walk down the tree *)

Lemma traverse_inner_cons l r b s :
  traverse (Some (to_node (Inner l r))) (String b s) =
    if decide (b = "0"%char) then traverse (Some (to_node l)) s
    else if decide (b = "1"%char) then traverse (Some (to_node r)) s
    else None.
Proof. done. Qed.

Lemma traverse_leaf c f s :
  Char.to_Z c >= 0 →
  traverse (Some (to_node (Leaf c f))) s = Some (Some (Node_new c f), s).
Proof. intros. destruct s; simpl; by rewrite bool_decide_eq_false_2 by lia. Qed.

(** The walk reads bits only. *)
Lemma traverse_binary node s n s' :
  traverse node s = Some (n, s') → binary s = false → binary s' = false.
Proof.
  revert node. induction s as [|b s IH]; intros node.
  - by destruct node as [n0|]; simpl; [case_bool_decide|]; intros [= _ <-].
  - destruct node as [n0|]; simpl; [|by intros [= _ <-]].
    case_bool_decide; [|by intros [= _ <-]].
    destruct (decide (b = "0"%char)) as [->|]; [by apply IH|].
    destruct (decide (b = "1"%char)) as [->|]; [by apply IH|done].
Qed.

Lemma traverse_length node s n s' :
  traverse node s = Some (n, s') → (String.length s' ≤ String.length s)%nat.
Proof.
  revert node. induction s as [|b s IH]; intros node.
  - by destruct node as [n0|]; simpl; [case_bool_decide|]; intros [= _ <-].
  - destruct node as [n0|]; simpl; [|by intros [= _ <-]].
    case_bool_decide; [|by intros [= _ <-]].
    destruct (decide (b = "0"%char)) as [->|]; [intros ?%IH; lia|].
    destruct (decide (b = "1"%char)) as [->|]; [intros ?%IH; lia|done].
Qed.

(** From an inner node the walk reads at least one character. *)
Lemma traverse_progress n0 b s n s' :
  Char.to_Z (character n0) < 0 →
  traverse (Some n0) (String b s) = Some (n, s') →
  (String.length s' ≤ String.length s)%nat.
Proof.
  intros Hn0. simpl. rewrite bool_decide_eq_true_2 by done.
  destruct (decide (b = "0"%char)); [apply traverse_length|].
  destruct (decide (b = "1"%char)); [apply traverse_length|done].
Qed.

(** The bits of a leaf lead to that leaf. *)
Lemma traverse_code t c f s rest :
  (c, f, s) ∈ coded t → Char.to_Z c >= 0 →
  traverse (Some (to_node t)) (s +:+ rest) = Some (Some (Node_new c f), rest).
Proof.
  revert s. induction t as [c' f'|l IHl r IHr]; intros s Hin Hc.
  - apply list_elem_of_singleton in Hin as [= -> -> ->]. by apply traverse_leaf.
  - apply elem_of_coded_inner in Hin as [([[c' f'] s'] & Hy & Heq)|([[c' f'] s'] & Hy & Heq)];
      simpl in Heq; injection Heq as -> -> ->;
      cbn [String.append]; rewrite traverse_inner_cons.
    + rewrite decide_True by done. by apply IHl.
    + rewrite decide_False, decide_True by done. by apply IHr.
Qed.

(** Bits that stop above a leaf lead to an inner node. *)
Lemma traverse_prefix t c f p q :
  (c, f, p +:+ q) ∈ coded t → q ≠ "" →
  ∃ n, traverse (Some (to_node t)) p = Some (Some n, "") ∧
       character n = character Node_default.
Proof.
  revert p. induction t as [c' f'|l IHl r IHr]; intros p Hin Hq.
  - apply list_elem_of_singleton in Hin as [= _ _ Hpq]. by destruct p, q.
  - destruct p as [|b p]; [by exists (to_node (Inner l r))|].
    apply elem_of_coded_inner in Hin as [([[c' f'] s'] & Hy & Heq)|([[c' f'] s'] & Hy & Heq)];
      simpl in Heq; injection Heq as -> -> -> <-; rewrite traverse_inner_cons.
    + rewrite decide_True by done. by apply (IHl p).
    + rewrite decide_False, decide_True by done. by apply (IHr p).
Qed.

(** ** [decode]: the loops *)

Lemma decode_loop_step fuel root b s decoded :
  decode_loop (S fuel) root (String b s) decoded =
    match traverse root (String b s) with
    | None => Some ""
    | Some (Some node, s') =>
        decode_loop fuel root s' (decoded +:+ String (character node) "")
    | Some (None, _) => Some ""
    end.
Proof. done. Qed.

(** More fuel does not change a result. *)
Lemma decode_loop_mono fuel fuel' root s decoded r :
  decode_loop fuel root s decoded = Some r → (fuel ≤ fuel')%nat →
  decode_loop fuel' root s decoded = Some r.
Proof.
  revert fuel' s decoded. induction fuel as [|fuel IH]; intros fuel' s decoded.
  - destruct s; [|done]. by destruct fuel'.
  - destruct s as [|b s]; [by destruct fuel'|].
    intros Hr Hle. destruct fuel' as [|fuel']; [lia|].
    rewrite decode_loop_step in *.
    destruct (traverse root (String b s)) as [[[n|] s']|]; [|done..].
    apply IH; [done|lia].
Qed.

(** A character that is not a bit makes the whole result empty. *)
Lemma decode_loop_invalid fuel n0 s decoded :
  Char.to_Z (character n0) < 0 → binary s = false →
  (String.length s ≤ fuel)%nat →
  decode_loop fuel (Some n0) s decoded = Some "".
Proof.
  intros Hn0. revert s decoded. induction fuel as [|fuel IH]; intros s decoded Hs Hfuel.
  - destruct s; [done|simpl in *; lia].
  - destruct s as [|b s]; [done|]. rewrite decode_loop_step.
    destruct (traverse (Some n0) (String b s)) as [[[n|] s']|] eqn:E; [|done..].
    apply IH.
    + by eapply traverse_binary.
    + apply traverse_progress in E; [|done]. simpl in *. lia.
Qed.

(** With an inner node as the root, as many turns as the input has
    characters bring the outer loop to its end. *)
Lemma decode_loop_fuel fuel n0 s decoded :
  Char.to_Z (character n0) < 0 → (String.length s ≤ fuel)%nat →
  is_Some (decode_loop fuel (Some n0) s decoded).
Proof.
  intros Hn0. revert s decoded. induction fuel as [|fuel IH]; intros s decoded Hfuel.
  - destruct s; [by eexists|simpl in *; lia].
  - destruct s as [|b s]; [by eexists|]. rewrite decode_loop_step.
    destruct (traverse (Some n0) (String b s)) as [[[n|] s']|] eqn:E; [|by eexists..].
    apply IH. apply traverse_progress in E; [|done]. simpl in *. lia.
Qed.

Lemma decode_only_invalid c s decoded :
  binary s = false → decode_only c s decoded = "".
Proof.
  revert decoded. induction s as [|b s IH]; intros decoded; [done|]. simpl.
  destruct (decide (b = "0"%char)) as [->|]; [|done]. simpl. apply IH.
Qed.

(** [binary s = false] says that some character of [s] is not a bit. *)
Lemma binary_false s :
  binary s = false ↔
  ∃ s1 x s2, s = s1 +:+ String x s2 ∧ x ≠ "0"%char ∧ x ≠ "1"%char.
Proof.
  split.
  - induction s as [|b s IH]; [done|]. simpl.
    destruct (decide (b = "0"%char)) as [->|H0].
    { intros (s1 & x & s2 & -> & ? & ?)%IH. by exists (String "0" s1), x, s2. }
    destruct (decide (b = "1"%char)) as [->|H1].
    { intros (s1 & x & s2 & -> & ? & ?)%IH. by exists (String "1" s1), x, s2. }
    intros _. by exists "", b, s.
  - intros (s1 & x & s2 & -> & H0 & H1). induction s1 as [|b s1 IH]; simpl.
    + by rewrite !bool_decide_eq_false_2.
    + by rewrite IH, andb_false_r.
Qed.

(** C6. A string with a character other than ['0'] and ['1'] is decoded
    to the empty string, whatever the number of symbols of the tree. *)
Theorem decode_invalid_character `{HeapAlgorithms} (file : option string) (s : string) :
  binary s = false → decode (construct file) s = Some "".
Proof.
  intros Hs. unfold decode, construct. rewrite build_frequencies.
  set (m := read_file file ∅).
  case_bool_decide as Hsize; [|case_bool_decide as Hone; [|done]].
  - destruct (build_spec m) as (T & Hm & -> & _); [apply read_file_positive|lia|].
    destruct (huffman_merge_inner _ _ Hm) as (l & r & ->).
    { by rewrite leaf_forest_length. }
    by apply decode_loop_invalid.
  - destruct (map_items_singleton m Hone) as (c & n & -> & _).
    by rewrite decode_only_invalid.
Qed.

(** [decode] returns on every input. *)
Lemma decode_total `{HeapAlgorithms} (file : option string) (s : string) :
  is_Some (decode (construct file) s).
Proof.
  unfold decode, construct. rewrite build_frequencies.
  set (m := read_file file ∅).
  case_bool_decide as Hsize; [|case_bool_decide as Hone; [|by eexists]].
  - destruct (build_spec m) as (T & Hm & -> & _); [apply read_file_positive|lia|].
    destruct (huffman_merge_inner _ _ Hm) as (l & r & ->).
    { by rewrite leaf_forest_length. }
    by apply decode_loop_fuel.
  - destruct (map_items m); by eexists.
Qed.

(** ** [decode] after [encode] *)

Section decode_codes.
Variables (t : huffman_tree) (l r : htree).
Hypothesis Htable : encoded_chars t = encode_characters "" (to_node (Inner l r)) ∅.

Lemma code_of_leaf c s :
  encoded_chars t !! c = Some s →
  Char.to_Z c >= 0 ∧ s ≠ "" ∧ ∃ f, (c, f, s) ∈ coded (Inner l r).
Proof using Htable.
  rewrite Htable. intros [Hc [f Hin]%find_code_Some]%lookup_code_table.
  split_and!; [done| |by exists f]. by apply (coded_nonempty _ _ _ Hin).
Qed.

(** The codes of a text are read back as the text; what follows them is
    decoded after it. *)
Lemma decode_loop_encoded text fuel rest decoded res :
  all_coded t text = true →
  decode_loop fuel (Some (to_node (Inner l r))) rest (decoded +:+ text) = Some res →
  decode_loop (String.length text + fuel) (Some (to_node (Inner l r)))
    (encode_text t text +:+ rest) decoded = Some res.
Proof using Htable.
  revert decoded. induction text as [|c text IH]; intros decoded.
  - intros _. by rewrite append_nil_r.
  - cbn [all_coded encode_text String.length Nat.add].
    intros [[s Hs]%bool_decide_eq_true Htext]%andb_true_iff Hres.
    unfold get_character_code. rewrite Hs.
    destruct (code_of_leaf c s Hs) as (Hc & Hne & f & Hin).
    rewrite append_assoc.
    destruct (s +:+ encode_text t text +:+ rest) as [|b s'] eqn:E.
    { by destruct s. }
    rewrite decode_loop_step, <- E, (traverse_code _ c f); [|done..].
    apply IH; [done|]. by rewrite append_assoc.
Qed.

Lemma encode_text_length text :
  all_coded t text = true →
  (String.length text ≤ String.length (encode_text t text))%nat.
Proof using Htable.
  induction text as [|c text IH]; [done|]. simpl.
  intros [[s Hs]%bool_decide_eq_true Htext]%andb_true_iff.
  unfold get_character_code. rewrite Hs, length_append.
  destruct (code_of_leaf c s Hs) as (_ & Hne & _).
  specialize (IH Htext). destruct s; [done|]. simpl. lia.
Qed.
End decode_codes.

Lemma decode_only_encoded t c text decoded :
  encoded_chars t = {[ c := "0" ]} → all_coded t text = true →
  decode_only c (encode_text t text) decoded = decoded +:+ text.
Proof.
  intros Htable. revert decoded. induction text as [|c' text IH]; intros decoded.
  - intros _. simpl. by rewrite append_nil_r.
  - simpl. rewrite Htable.
    intros [[s [<- <-]%lookup_singleton_Some]%bool_decide_eq_true Htext]%andb_true_iff.
    unfold get_character_code. rewrite Htable, lookup_singleton_eq. simpl.
    rewrite IH by done. by rewrite append_assoc.
Qed.

(** C1. A text all of whose characters have codes in the table comes back
    unchanged, line terminators included, when the result of [encode] is
    given to [decode] of the same object. *)
Theorem decode_encode `{HeapAlgorithms} (file : option string) (text : string) :
  let t := construct file in
  all_coded t text = true → decode t (encode t (Some text)) = Some text.
Proof.
  intros t Htext. rewrite encode_text_spec, Htext. subst t.
  unfold decode, construct in *. rewrite build_frequencies.
  set (m := read_file file ∅) in *.
  destruct (decide (size m = 0%nat)) as [Hzero|Hzero].
  { rewrite !bool_decide_eq_false_2 by lia.
    destruct (build_empty m Hzero) as [_ Htable].
    destruct text as [|c text]; [done|]. cbn [all_coded] in Htext.
    by rewrite Htable, lookup_empty, bool_decide_eq_false_2 in Htext by (by intros [? ?]). }
  destruct (build_spec m) as (T & Hm & Hq & Htable); [apply read_file_positive|done|].
  destruct (decide (size m = 1%nat)) as [Hone|Hone].
  - rewrite bool_decide_eq_false_2 by lia.
    rewrite bool_decide_eq_true_2 in * by done.
    destruct (map_items_singleton m Hone) as (c & n & Hitems & _).
    rewrite Hitems in *. simpl. by rewrite (decode_only_encoded _ c).
  - rewrite bool_decide_eq_true_2 by lia.
    rewrite bool_decide_eq_false_2 in Htable by done.
    destruct (huffman_merge_inner _ _ Hm) as (l & r & ->).
    { rewrite leaf_forest_length. lia. }
    rewrite Hq. simpl head.
    eapply decode_loop_mono; [|by apply (encode_text_length _ l r)].
    rewrite <- (append_nil_r (encode_text _ text)).
    rewrite <- (Nat.add_0_r (String.length text)).
    by apply (decode_loop_encoded _ l r).
Qed.

(** C2, what the code does. With two or more symbols, a string that ends
    on the way to a leaf is not refused: the characters decoded so far are
    returned, followed by the character [-64] that marks an inner node.
    Here [p] is the part read of the last code, [q] the part that is
    missing. *)
Theorem decode_truncated `{HeapAlgorithms} (m : gmap ascii Z)
    (text : string) (c : ascii) (p q : string) :
  let t := build m in
  positive_counts m → (1 < size m)%nat → all_coded t text = true →
  get_character_code t c = p +:+ q → p ≠ "" → q ≠ "" →
  decode t (encode_text t text +:+ p) =
    Some (text +:+ String Char.no_character "").
Proof.
  intros t Hpos Hsize Htext Hcode Hp Hq. subst t.
  unfold decode. rewrite build_frequencies, bool_decide_eq_true_2 by done.
  destruct (build_spec m) as (T & Hm & Hqueue & Htable); [done|lia|].
  rewrite bool_decide_eq_false_2 in Htable by lia.
  destruct (huffman_merge_inner _ _ Hm) as (l & r & ->).
  { by rewrite leaf_forest_length. }
  rewrite Hqueue. simpl head.
  unfold get_character_code in Hcode.
  destruct (encoded_chars (build m) !! c) as [s|] eqn:Hs; [subst s|by destruct p].
  destruct (code_of_leaf _ l r Htable c _ Hs) as (_ & _ & f & Hin).
  destruct (traverse_prefix _ c f p q Hin Hq) as (n & Hn & Hchar).
  eapply decode_loop_mono.
  - apply (decode_loop_encoded _ l r Htable text 1); [done|].
    destruct p as [|b p]; [done|]. rewrite decode_loop_step, Hn. simpl.
    by rewrite Hchar.
  - rewrite length_append. pose proof (encode_text_length _ l r Htable text Htext).
    destruct p; [done|]. simpl. lia.
Qed.

(** ** Weights and depths *)

Lemma dot_app ws1 ws2 ds1 ds2 :
  length ws1 = length ds1 →
  dot (ws1 ++ ws2) (ds1 ++ ds2) = dot ws1 ds1 + dot ws2 ds2.
Proof.
  revert ds1. induction ws1 as [|w ws1 IH]; intros [|d ds1] ?; simplify_eq/=; [done|].
  rewrite IH by done. lia.
Qed.

Lemma dot_insert ws1 x ws2 ds1 d ds2 :
  length ws1 = length ds1 →
  dot (ws1 ++ x :: ws2) (ds1 ++ d :: ds2) =
    x * Z.of_nat d + dot (ws1 ++ ws2) (ds1 ++ ds2).
Proof. intros. rewrite !dot_app by done. simpl. lia. Qed.

Lemma dot_deeper ws ds :
  length ws = length ds → dot ws (S <$> ds) = dot ws ds + sum_with id ws.
Proof.
  revert ds. induction ws as [|w ws IH]; intros [|d ds] ?; simplify_eq/=; [done|].
  rewrite IH by done. lia.
Qed.

Lemma dot_nonneg ws ds : Forall (λ w, 0 ≤ w) ws → 0 ≤ dot ws ds.
Proof.
  intros Hws. revert ds. induction Hws as [|w ws Hw _ IH]; intros [|d ds]; simpl; try done.
  specialize (IH ds).
  pose proof (Z.mul_nonneg_nonneg w (Z.of_nat d) Hw (Nat2Z.is_nonneg d)). lia.
Qed.

(** A list as long as [ds1 ++ d :: ds2] splits in the same way. *)
Lemma split_like {A B} (ws : list A) (ds1 : list B) d ds2 :
  length ws = length (ds1 ++ d :: ds2) →
  ∃ ws1 x ws2, ws = ws1 ++ x :: ws2 ∧ length ws1 = length ds1 ∧ length ws2 = length ds2.
Proof.
  rewrite length_app. simpl. intros Hlen.
  destruct (drop (length ds1) ws) as [|x ws2] eqn:E.
  { apply (f_equal length) in E. rewrite length_drop in E. simpl in E. lia. }
  exists (take (length ds1) ws), x, ws2. split_and!.
  - by rewrite <- E, take_drop.
  - rewrite length_take. lia.
  - apply (f_equal length) in E. rewrite length_drop in E. simpl in E. lia.
Qed.

Lemma split_like_app {A B} (ws : list A) (ds1 ds2 : list B) :
  length ws = length (ds1 ++ ds2) →
  ∃ ws1 ws2, ws = ws1 ++ ws2 ∧ length ws1 = length ds1 ∧ length ws2 = length ds2.
Proof.
  rewrite length_app. intros Hlen.
  exists (take (length ds1) ws), (drop (length ds1) ws). split_and!.
  - by rewrite take_drop.
  - rewrite length_take. lia.
  - rewrite length_drop. lia.
Qed.

(** In a tree with more than one leaf two leaves of greatest depth are
    neighbours, and joining them into one leaf gives a tree again. *)
Lemma tree_depths_deepest ds :
  tree_depths ds →
  ds = [0%nat] ∨
  ∃ ds1 h ds2, ds = ds1 ++ S h :: S h :: ds2 ∧
               Forall (λ d, d ≤ S h)%nat ds ∧
               tree_depths (ds1 ++ h :: ds2).
Proof.
  induction 1 as [|dl dr Hl IHl Hr IHr]; [by left|]. right.
  destruct IHl as [->|(l1 & hl & l2 & -> & Hlmax & Hl')],
           IHr as [->|(r1 & hr & r2 & -> & Hrmax & Hr')].
  - exists [], 0%nat, []. split_and!; [done|by repeat constructor|constructor].
  - exists (1%nat :: (S <$> r1)), (S hr), (S <$> r2). split_and!.
    + simpl. by rewrite fmap_app.
    + apply Forall_fmap. constructor; [simpl; lia|].
      eapply Forall_impl; [done|]. simpl. lia.
    + apply (depths_node [0%nat] (r1 ++ hr :: r2)) in Hr'; [|constructor].
      simpl in *. by rewrite fmap_app in Hr'.
  - exists (S <$> l1), (S hl), ((S <$> l2) ++ [1%nat]). split_and!.
    + by rewrite !fmap_app, <- !app_assoc.
    + apply Forall_fmap, Forall_app. split.
      * eapply Forall_impl; [done|]. simpl. lia.
      * constructor; [simpl; lia|constructor].
    + apply (depths_node (l1 ++ hl :: l2) [0%nat]) in Hl'; [|constructor].
      by rewrite !fmap_app, <- !app_assoc in Hl'.
  - destruct (decide (hr ≤ hl)%nat).
    + exists (S <$> l1), (S hl), ((S <$> l2) ++ (S <$> (r1 ++ S hr :: S hr :: r2))).
      split_and!.
      * by rewrite !fmap_app, <- !app_assoc.
      * apply Forall_fmap, Forall_app. split.
        -- eapply Forall_impl; [exact Hlmax|]. simpl. lia.
        -- eapply Forall_impl; [exact Hrmax|]. simpl. lia.
      * apply (depths_node _ _ Hl') in Hr.
        rewrite !fmap_app, <- !app_assoc in Hr. by rewrite !fmap_app.
    + exists ((S <$> (l1 ++ S hl :: S hl :: l2)) ++ (S <$> r1)), (S hr), (S <$> r2).
      split_and!.
      * by rewrite !fmap_app, <- !app_assoc.
      * apply Forall_fmap, Forall_app. split.
        -- eapply Forall_impl; [exact Hlmax|]. simpl. lia.
        -- eapply Forall_impl; [exact Hrmax|]. simpl. lia.
      * apply (depths_node _ _ Hl) in Hr'.
        rewrite !fmap_app, <- !app_assoc in Hr'. by rewrite !fmap_app, <- !app_assoc.
Qed.

(** Exchange: a least weight can be moved to a deepest place at no cost. *)
Lemma exchange_least x us es m rest H :
  length us = length es →
  x :: us ≡ₚ m :: rest →
  Forall (λ r, m ≤ r) rest →
  Forall (λ d, d ≤ H)%nat es →
  ∃ us', length us' = length us ∧ us' ≡ₚ rest ∧
         m * Z.of_nat H + dot us' es ≤ x * Z.of_nat H + dot us es.
Proof.
  intros Hlen Hperm Hrest Hes.
  destruct (decide (m = x)) as [->|Hne].
  { exists us. split_and!; [done| |done]. by apply Permutation_cons_inv in Hperm. }
  assert (m ∈ us) as (u1 & u2 & ->)%list_elem_of_split.
  { assert (m ∈ x :: us) as [?|?]%elem_of_cons; [|done..].
    rewrite Hperm. by left. }
  assert (m ≤ x) as Hmx.
  { assert (x ∈ m :: rest) as [->|Hx]%elem_of_cons; [|done|].
    - rewrite <- Hperm. by left.
    - rewrite Forall_forall in Hrest. by apply Hrest. }
  destruct (split_like es u1 m u2) as (e1 & d & e2 & -> & He1 & He2); [done|].
  exists (u1 ++ x :: u2). split_and!.
  - by rewrite !length_app.
  - apply Permutation_cons_inv with m. rewrite <- Hperm.
    by rewrite Permutation_middle, Permutation_swap, <- Permutation_middle.
  - rewrite !dot_insert by done.
    assert (d ≤ H)%nat.
    { rewrite Forall_forall in Hes. apply Hes. set_solver. }
    nia.
Qed.

(** The greedy choice: when [a] and [b] are the two least weights, a tree
    for the weights costs at least [a + b] more than some tree in which
    [a] and [b] are replaced by the one weight [a + b]. *)
Lemma greedy_choice ws ds a b rest :
  tree_depths ds → length ws = length ds →
  ws ≡ₚ a :: b :: rest → a ≤ b → Forall (λ r, b ≤ r) rest →
  ∃ ws' ds', tree_depths ds' ∧ length ws' = length ds' ∧
             ws' ≡ₚ (a + b) :: rest ∧ dot ws' ds' + a + b ≤ dot ws ds.
Proof.
  intros Hds Hlen Hperm Hab Hrest.
  destruct (tree_depths_deepest ds Hds) as [->|(ds1 & h & ds2 & -> & Hmax & Hds')].
  { apply Permutation_length in Hperm. simpl in *. lia. }
  destruct (split_like ws ds1 (S h) (S h :: ds2) Hlen) as (ws1 & x & ws2' & -> & Hl1 & Hl2).
  destruct ws2' as [|y ws2]; [done|]. simpl in Hl2.
  apply Forall_app in Hmax as [Hmax1 Hmax2].
  apply Forall_cons in Hmax2 as [_ Hmax2]. apply Forall_cons in Hmax2 as [_ Hmax2].
  destruct (exchange_least x (ws1 ++ y :: ws2) (ds1 ++ S h :: ds2) a (b :: rest) (S h))
    as (us1 & Hlen1 & Hp1 & Hc1).
  { rewrite !length_app. simpl. lia. }
  { by rewrite <- Hperm, Permutation_middle. }
  { constructor; [done|]. eapply Forall_impl; [done|]. simpl. lia. }
  { apply Forall_app. split; [done|]. by constructor. }
  destruct (split_like us1 ds1 (S h) ds2) as (u1 & y1 & u2 & -> & Hu1 & Hu2).
  { rewrite Hlen1, !length_app. simpl. lia. }
  destruct (exchange_least y1 (u1 ++ u2) (ds1 ++ ds2) b rest (S h))
    as (us2 & Hlen2 & Hp2 & Hc2).
  { rewrite !length_app. lia. }
  { by rewrite <- Hp1, Permutation_middle. }
  { done. }
  { apply Forall_app. by split. }
  destruct (split_like_app us2 ds1 ds2) as (v1 & v2 & -> & Hv1 & Hv2).
  { rewrite Hlen2, !length_app. lia. }
  exists (v1 ++ (a + b) :: v2), (ds1 ++ h :: ds2). split_and!.
  - done.
  - rewrite !length_app. simpl. lia.
  - by rewrite <- Permutation_middle, Hp2.
  - rewrite !dot_insert in * by done. rewrite Nat2Z.inj_succ in *. lia.
Qed.

(** Huffman's algorithm is optimal among trees: the weighted path length
    of its result is at most what any way of hanging the trees of the
    forest into one tree costs. *)
Lemma huffman_merge_optimal ts t :
  huffman_merge ts t → Forall (λ u, 0 ≤ weight u) ts →
  ∀ ws ds, tree_depths ds → length ws = length ds → ws ≡ₚ weight <$> ts →
           wpl t ≤ sum_with wpl ts + dot ws ds.
Proof.
  induction 1 as [t|ts a b rest t Hts Hab Hrest _ IH]; intros Hpos ws ds Hds Hlen Hws.
  - simpl. apply Permutation_singleton_r in Hws as ->.
    apply Forall_cons in Hpos as [Hpos _].
    pose proof (dot_nonneg [weight t] ds) as Hdot.
    assert (0 ≤ dot [weight t] ds) by (apply Hdot; by constructor). lia.
  - rewrite Hts in Hpos, Hws. rewrite (sum_with_Permutation _ _ _ Hts).
    apply Forall_cons in Hpos as [Ha Hpos]. apply Forall_cons in Hpos as [Hb Hpos].
    destruct (greedy_choice ws ds (weight a) (weight b) (weight <$> rest))
      as (ws' & ds' & Hds' & Hlen' & Hws' & Hcost); [done..| |].
    { by apply Forall_fmap. }
    simpl in Ha, Hb.
    assert (Forall (λ u, 0 ≤ weight u) (Inner a b :: rest)) as Hpos'.
    { constructor; [simpl; lia|done]. }
    specialize (IH Hpos' ws' ds' Hds' Hlen' Hws'). simpl in *. lia.
Qed.

(** ** From a prefix-free code to a tree *)

Lemma first_rest s b : first_char s = Some b → s = String b (rest_chars s).
Proof. destruct s; [done|]. by intros [= ->]. Qed.

Lemma first_char_binary s :
  binary s = true → s ≠ "" → first_char s = Some "0"%char ∨ first_char s = Some "1"%char.
Proof.
  destruct s as [|b s]; [done|]. simpl.
  intros [[->%bool_decide_eq_true| ->%bool_decide_eq_true]%orb_true_iff _]%andb_true_iff _;
    eauto.
Qed.

(** The cost of a branch: all its words start with the same bit. *)
Lemma branch_cost (b : ascii) (sub : list ascii) (w : ascii → Z) (code : ascii → string)
    ws ds :
  (∀ c, c ∈ sub → first_char (code c) = Some b) →
  length ws = length ds → ws ≡ₚ w <$> sub →
  dot ws ds ≤ sum_with (λ c, w c * Z.of_nat (String.length (rest_chars (code c)))) sub →
  dot ws (S <$> ds) ≤ sum_with (λ c, w c * Z.of_nat (String.length (code c))) sub.
Proof.
  intros Hb Hlen Hws Hcost. rewrite dot_deeper by done.
  rewrite (sum_with_Permutation _ _ _ Hws), sum_with_fmap.
  assert (sum_with (λ c, w c * Z.of_nat (String.length (code c))) sub =
          sum_with (λ c, w c * Z.of_nat (String.length (rest_chars (code c)))) sub
          + sum_with w sub) as ->.
  { rewrite <- sum_with_add. apply sum_with_ext. intros c Hc.
    rewrite (first_rest (code c) b) at 1 by auto. simpl String.length. lia. }
  change (id ∘ w) with w. lia.
Qed.

(** The words of a branch without their first bit form a prefix-free
    binary code again, and a shorter one. *)
Lemma branch_code (b : ascii) (sub syms : list ascii) (code : ascii → string) :
  sub ⊆ syms →
  (∀ c, c ∈ sub → first_char (code c) = Some b) →
  (∀ c, c ∈ syms → binary (code c) = true) →
  (∀ c1 c2, c1 ∈ syms → c2 ∈ syms → c1 ≠ c2 →
     String.prefix (code c1) (code c2) = false) →
  (∀ c, c ∈ sub → binary (rest_chars (code c)) = true)
  ∧ (∀ c1 c2, c1 ∈ sub → c2 ∈ sub → c1 ≠ c2 →
       String.prefix (rest_chars (code c1)) (rest_chars (code c2)) = false).
Proof.
  intros Hsub Hb Hbin Hfree. split.
  - intros c Hc. specialize (Hbin c (Hsub _ Hc)).
    rewrite (first_rest _ b (Hb c Hc)) in Hbin. simpl in Hbin.
    by apply andb_true_iff in Hbin as [_ ?].
  - intros c1 c2 Hc1 Hc2 Hne.
    specialize (Hfree c1 c2 (Hsub _ Hc1) (Hsub _ Hc2) Hne).
    rewrite (first_rest _ b (Hb c1 Hc1)), (first_rest _ b (Hb c2 Hc2)) in Hfree.
    simpl in Hfree. by destruct (Ascii.ascii_dec b b).
Qed.

Lemma prefix_code_nonempty (syms : list ascii) (code : ascii → string) c :
  (∀ c1 c2, c1 ∈ syms → c2 ∈ syms → c1 ≠ c2 →
     String.prefix (code c1) (code c2) = false) →
  NoDup syms → (1 < length syms)%nat → c ∈ syms → code c ≠ "".
Proof.
  intros Hfree Hnd Hlen Hc Hnil.
  assert (∃ c', c' ∈ syms ∧ c ≠ c') as (c' & Hc' & Hne).
  { destruct syms as [|c1 [|c2 syms]]; simpl in Hlen; [lia..|].
    apply NoDup_cons in Hnd as [Hc1 _]. rewrite not_elem_of_cons in Hc1.
    destruct Hc1 as [Hc12 _].
    destruct (decide (c = c1)) as [->|]; [exists c2|exists c1]; (split; [|done]).
    - right. by left.
    - by left. }
  specialize (Hfree c c' Hc Hc' Hne). rewrite Hnil in Hfree. by destruct (code c').
Qed.

Lemma rest_chars_length (b : ascii) (sub : list ascii) (code : ascii → string) :
  (∀ c, c ∈ sub → first_char (code c) = Some b) →
  sum_with (λ c, Z.of_nat (String.length (rest_chars (code c)))) sub
    + Z.of_nat (length sub)
  = sum_with (λ c, Z.of_nat (String.length (code c))) sub.
Proof.
  induction sub as [|c sub IH]; intros Hb; simpl; [done|].
  rewrite <- IH by (intros c' ?; apply Hb; by right).
  rewrite (first_rest (code c) b) at 2 by (apply Hb; by left).
  simpl String.length. lia.
Qed.

(** A prefix-free binary code costs at least as much as some tree for the
    same weights: the tree that its words spell out, with the nodes that
    have one child left out. *)
Lemma prefix_code_depths (n : nat) (syms : list ascii) (w : ascii → Z)
    (code : ascii → string) :
  NoDup syms → syms ≠ [] →
  (∀ c, c ∈ syms → 0 ≤ w c) →
  (∀ c, c ∈ syms → binary (code c) = true) →
  (∀ c1 c2, c1 ∈ syms → c2 ∈ syms → c1 ≠ c2 →
     String.prefix (code c1) (code c2) = false) →
  sum_with (λ c, Z.of_nat (String.length (code c))) syms ≤ Z.of_nat n →
  ∃ ws ds, tree_depths ds ∧ length ws = length ds ∧ ws ≡ₚ w <$> syms ∧
           dot ws ds ≤ sum_with (λ c, w c * Z.of_nat (String.length (code c))) syms.
Proof.
  revert syms code. induction n as [|n IH]; intros syms code Hnd Hne Hw Hbin Hfree Hn;
    (destruct (decide (length syms = 1%nat)) as [Hone|Hmany];
     [destruct syms as [|c [|??]]; simplify_eq/=;
      exists [w c], [0%nat]; split_and!; [constructor|done|done|];
      pose proof (Hw c ltac:(by left)); simpl; nia|]).
  all: assert (1 < length syms)%nat as Hlen by (destruct syms; simpl in *; [done|lia]).
  all: assert (∀ c, c ∈ syms → code c ≠ "") as Hnonempty
         by (intros c Hc; by eapply prefix_code_nonempty).
  all: assert (∀ c, c ∈ syms → 1 ≤ Z.of_nat (String.length (code c))) as Hlong
         by (intros c Hc; specialize (Hnonempty c Hc); destruct (code c); [done|simpl; lia]).
  { destruct syms as [|c syms]; [done|]. simpl in Hn.
    pose proof (Hlong c ltac:(by left)).
    assert (0 ≤ sum_with (λ c, Z.of_nat (String.length (code c))) syms); [|lia].
    apply sum_with_nonneg. intros; lia. }
  set (P := λ c, first_char (code c) = Some "0"%char).
  pose proof (filter_app_complement P syms) as Hsplit.
  set (syms0 := filter P syms) in *. set (syms1 := filter (λ c, ¬ P c) syms) in *.
  assert (syms0 ⊆ syms) as Hsub0 by apply list_subseteq_filter.
  assert (syms1 ⊆ syms) as Hsub1 by apply list_subseteq_filter.
  assert (∀ c, c ∈ syms0 → first_char (code c) = Some "0"%char) as Hb0.
  { by intros c [? _]%list_elem_of_filter. }
  assert (∀ c, c ∈ syms1 → first_char (code c) = Some "1"%char) as Hb1.
  { intros c [Hc0 Hc]%list_elem_of_filter.
    by destruct (first_char_binary (code c) (Hbin c Hc) (Hnonempty c Hc)). }
  assert (sum_with (λ c, Z.of_nat (String.length (code c))) syms0
          + sum_with (λ c, Z.of_nat (String.length (code c))) syms1
          = sum_with (λ c, Z.of_nat (String.length (code c))) syms) as Hsum.
  { by rewrite <- sum_with_app, Hsplit. }
  assert (∀ l : list ascii, 0 ≤ sum_with (λ c, Z.of_nat (String.length (code c))) l) as Hpos.
  { intros l. apply sum_with_nonneg. intros; lia. }
  assert (∀ b sub, sub ≠ [] → sub ⊆ syms → NoDup sub →
            (∀ c, c ∈ sub → first_char (code c) = Some b) →
            sum_with (λ c, Z.of_nat (String.length (code c))) sub
              ≤ sum_with (λ c, Z.of_nat (String.length (code c))) syms →
            ∃ ws ds, tree_depths ds ∧ length ws = length ds ∧ ws ≡ₚ w <$> sub ∧
              dot ws ds ≤
                sum_with (λ c, w c * Z.of_nat (String.length (rest_chars (code c)))) sub)
    as Hbranch.
  { intros b sub Hsubne Hsub Hsubnd Hb Hle.
    destruct (branch_code b sub syms code Hsub Hb Hbin Hfree) as [Hbin' Hfree'].
    apply (IH sub (λ c, rest_chars (code c))); try done.
    - intros c Hc. apply Hw, Hsub, Hc.
    - pose proof (rest_chars_length b sub code Hb).
      assert (1 ≤ Z.of_nat (length sub)) by (destruct sub; [done|simpl; lia]). lia. }
  assert (w <$> syms0 ++ syms1 ≡ₚ w <$> syms) as Hws by (by rewrite Hsplit).
  assert (sum_with (λ c, w c * Z.of_nat (String.length (code c))) syms0
          + sum_with (λ c, w c * Z.of_nat (String.length (code c))) syms1
          = sum_with (λ c, w c * Z.of_nat (String.length (code c))) syms) as Hcost.
  { by rewrite <- sum_with_app, Hsplit. }
  assert (∀ b sub ws ds, sub ⊆ syms →
            (∀ c, c ∈ sub → first_char (code c) = Some b) →
            dot ws ds ≤
              sum_with (λ c, w c * Z.of_nat (String.length (rest_chars (code c)))) sub →
            dot ws ds ≤ sum_with (λ c, w c * Z.of_nat (String.length (code c))) sub)
    as Hshort.
  { intros b sub ws ds Hsub Hb Hle. etrans; [done|]. apply sum_with_le.
    intros c Hc. pose proof (Hw c (Hsub _ Hc)).
    rewrite (first_rest (code c) b (Hb c Hc)) at 2. simpl String.length. nia. }
  destruct (decide (syms0 = [])) as [Hnil0|Hne0], (decide (syms1 = [])) as [Hnil1|Hne1].
  - rewrite Hnil0, Hnil1 in Hsplit. by apply Permutation_nil_l in Hsplit.
  - rewrite Hnil0 in *. simpl in *.
    destruct (Hbranch "1"%char syms1) as (ws & ds & Hds & Hl & Hp & Hc);
      [done|done|by apply NoDup_filter|done|lia|].
    exists ws, ds. split_and!; [done|done|by rewrite Hp|].
    rewrite <- Hcost. by eapply Hshort.
  - rewrite Hnil1, app_nil_r in *. simpl in *.
    destruct (Hbranch "0"%char syms0) as (ws & ds & Hds & Hl & Hp & Hc);
      [done|done|by apply NoDup_filter|done|lia|].
    exists ws, ds. split_and!; [done|done|by rewrite Hp|].
    rewrite <- Hcost, Z.add_0_r. by eapply Hshort.
  - destruct (Hbranch "0"%char syms0) as (ws0 & ds0 & Hds0 & Hl0 & Hp0 & Hc0);
      [done|done|by apply NoDup_filter|done|specialize (Hpos syms1); lia|].
    destruct (Hbranch "1"%char syms1) as (ws1 & ds1 & Hds1 & Hl1 & Hp1 & Hc1);
      [done|done|by apply NoDup_filter|done|specialize (Hpos syms0); lia|].
    exists (ws0 ++ ws1), (S <$> (ds0 ++ ds1)). split_and!.
    + by constructor.
    + rewrite length_fmap, !length_app. lia.
    + by rewrite <- Hws, fmap_app, Hp0, Hp1.
    + rewrite fmap_app, dot_app by (by rewrite length_fmap).
      pose proof (branch_cost "0"%char syms0 w code ws0 ds0 Hb0 Hl0 Hp0 Hc0).
      pose proof (branch_cost "1"%char syms1 w code ws1 ds1 Hb1 Hl1 Hp1 Hc1).
      lia.
Qed.

(** ** The cost of the code table *)

Lemma weight_coded t : weight t = sum_with (λ x, x.1.2) (coded t).
Proof.
  induction t as [c f|l IHl r IHr]; simpl; [lia|].
  by rewrite sum_with_app, !sum_with_fmap, IHl, IHr.
Qed.

Lemma wpl_coded t :
  wpl t = sum_with (λ x, x.1.2 * Z.of_nat (String.length x.2)) (coded t).
Proof.
  set (F := λ x : ascii * Z * string, x.1.2 * Z.of_nat (String.length x.2)).
  assert (∀ b L, sum_with (F ∘ (λ x, (x.1, String b x.2))) L
                 = sum_with F L + sum_with (λ x, x.1.2) L) as Hstep.
  { intros b L. rewrite <- sum_with_add. apply sum_with_ext.
    intros x _. unfold compose, F. simpl. lia. }
  induction t as [c f|l IHl r IHr]; [unfold F; simpl; lia|]. cbn [wpl coded].
  rewrite sum_with_app, !sum_with_fmap, !Hstep, <- IHl, <- IHr, <- !weight_coded. lia.
Qed.

Lemma elem_of_map_items_fst {V} (m : gmap ascii V) c :
  c ∈ (map_items m).*1 ↔ is_Some (m !! c).
Proof.
  rewrite list_elem_of_fmap. split.
  - intros ([c' v] & -> & Hin%elem_of_map_items). by exists v.
  - intros [v Hv]. exists (c, v). split; [done|]. by apply elem_of_map_items.
Qed.

(** The code table is at most as long as the tree is deep. *)
Lemma code_table_cost t l r :
  encoded_chars t = encode_characters "" (to_node (Inner l r)) ∅ →
  NoDup (leaves (Inner l r)).*1 →
  (∀ it, it ∈ leaves (Inner l r) → 0 ≤ it.2) →
  sum_with (λ it, it.2 * Z.of_nat (String.length (get_character_code t it.1)))
    (leaves (Inner l r)) ≤ wpl (Inner l r).
Proof.
  intros Htable Hnd Hpos. rewrite wpl_coded. unfold leaves. rewrite sum_with_fmap.
  apply sum_with_le. intros [[c f] s] Hin. unfold compose. simpl.
  assert (0 ≤ f) as Hf.
  { apply (Hpos (c, f)). apply list_elem_of_fmap. by exists (c, f, s). }
  unfold get_character_code. rewrite Htable, encode_characters_spec, lookup_empty.
  case_bool_decide.
  - by rewrite (find_code_elem c f s).
  - simpl. nia.
Qed.

(** For a table of characters with values from 0 to 127 the code table is
    itself a prefix-free binary code for the symbols of the table. *)
Lemma ascii_table_prefix_code `{HeapAlgorithms} (m : gmap ascii Z) :
  positive_counts m → (∀ c, is_Some (m !! c) → Char.to_Z c >= 0) →
  prefix_code m (get_character_code (build m)).
Proof.
  intros Hpos Hascii. destruct (build_codes m Hpos) as [Hcodes Hfree].
  assert (∀ c, is_Some (m !! c) →
            ∃ s, encoded_chars (build m) !! c = Some s ∧
                 get_character_code (build m) c = s) as Hget.
  { intros c Hc. destruct (build_codes_complete m c Hpos Hc) as [s Hs]; [auto|].
    exists s. split; [done|]. unfold get_character_code. by rewrite Hs. }
  split.
  - intros c (s & Hs & ->)%Hget. by apply (Hcodes c).
  - intros c1 c2 (s1 & Hs1 & ->)%Hget (s2 & Hs2 & ->)%Hget Hne.
    by destruct (Hfree c1 c2 s1 s2 Hne Hs1 Hs2).
Qed.

(** C9. For every frequency table with positive counts whose symbols
    are characters from 0 to 127 and whose counts add up to at most
    [Int.max], the code table that the constructor derives from it is a
    prefix-free binary code for the symbols of the table (every symbol has
    a non-empty word of ['0'] and ['1'], and no word is a prefix of the
    word of another symbol), and it has the least expected length: the sum
    over the symbols of count times length of the code word is at most
    that of any prefix-free binary code for the same symbols. *)
Theorem huffman_optimal `{HeapAlgorithms} (m : gmap ascii Z) :
  positive_counts m → ascii_table m → sum_with snd (map_items m) ≤ Int.max →
  prefix_code m (get_character_code (build m))
  ∧ ∀ code, prefix_code m code →
      expected_length m (get_character_code (build m)) ≤ expected_length m code.
Proof.
  intros Hpos Hascii Hmax. split; [by apply ascii_table_prefix_code|].
  intros code [Hcode Hfree]. unfold expected_length.
  destruct (decide (size m = 0%nat)) as [Hzero|Hzero].
  { apply map_size_empty_inv in Hzero as ->. by rewrite map_items_empty. }
  destruct (build_spec m Hpos Hzero) as (T & Hm & _ & Htable).
  destruct (decide (size m = 1%nat)) as [Hone|Hone].
  - rewrite bool_decide_eq_true_2 in Htable by done.
    destruct (map_items_singleton m Hone) as (c & n & Hitems & Hc).
    rewrite Hitems in Htable |- *. cbn [fst] in Htable.
    unfold sum_with, get_character_code. cbn [foldr fst snd].
    rewrite Htable, lookup_singleton_eq.
    destruct (Hcode c) as [Hne _]; [by eexists|].
    apply Hpos in Hc. destruct (code c); [done|]. simpl String.length. nia.
  - rewrite bool_decide_eq_false_2 in Htable by done.
    destruct (huffman_merge_inner _ _ Hm) as (l & r & ->).
    { rewrite leaf_forest_length. lia. }
    pose proof (huffman_merge_leaves _ _ Hm) as Hleaves.
    rewrite leaf_forest_leaves in Hleaves.
    assert (∀ it, it ∈ map_items m → 0 < it.2) as Hitems.
    { intros [c n] Hin%elem_of_map_items. by apply (Hpos c). }
    set (w := λ c, default 0 (m !! c)).
    destruct (prefix_code_depths
                (Z.to_nat (sum_with (λ c, Z.of_nat (String.length (code c)))
                             (map_items m).*1))
                (map_items m).*1 w code)
      as (ws & ds & Hds & Hlen & Hws & Hcost).
    { apply NoDup_map_items_fst. }
    { intros Hnil. apply (f_equal length) in Hnil.
      rewrite length_fmap, length_map_items in Hnil. simpl in Hnil. lia. }
    { intros c [n Hc]%elem_of_map_items_fst. unfold w. rewrite Hc. simpl.
      apply Hpos in Hc. lia. }
    { intros c Hc%elem_of_map_items_fst. by apply Hcode. }
    { intros c1 c2 Hc1%elem_of_map_items_fst Hc2%elem_of_map_items_fst. by apply Hfree. }
    { rewrite Z2Nat.id; [done|]. apply sum_with_nonneg. intros; lia. }
    assert (w <$> (map_items m).*1 = weight <$> leaf_forest m) as Hweights.
    { unfold leaf_forest. rewrite <- !list_fmap_compose. apply list_fmap_ext.
      intros i [c n] Hin%list_elem_of_lookup_2%elem_of_map_items.
      unfold compose, w. simpl. by rewrite Hin. }
    rewrite Hweights in Hws.
    pose proof (huffman_merge_optimal _ _ Hm) as Hopt.
    specialize (Hopt ltac:(apply Forall_fmap, Forall_forall;
                           intros it Hit%Hitems; simpl; lia) ws ds Hds Hlen Hws).
    rewrite leaf_forest_wpl in Hopt.
    assert (sum_with (λ it, it.2 * Z.of_nat (String.length
                                  (get_character_code (build m) it.1)))
              (leaves (Inner l r)) ≤ wpl (Inner l r)) as Htab.
    { apply code_table_cost; [done| |].
      - rewrite Hleaves. apply NoDup_map_items_fst.
      - intros it Hit. rewrite Hleaves in Hit. apply Hitems in Hit. lia. }
    rewrite (sum_with_Permutation _ _ _ Hleaves) in Htab.
    rewrite sum_with_fmap in Hcost.
    rewrite (sum_with_ext _ (λ it, it.2 * Z.of_nat (String.length (code it.1)))) in Hcost.
    + lia.
    + intros [c n] Hin%elem_of_map_items. unfold compose, w. simpl. by rewrite Hin.
Qed.

(** ** The theorems at work *)

(** The examples run the code with the library that keeps the vector
    sorted ([sorted_heap]). *)

Lemma decode_encode_witness :
  let text := "ab" +:+ String Char.newline "ba" in
  all_coded (construct (Some text)) text = true
  ∧ decode (construct (Some text)) (encode (construct (Some text)) (Some text))
    = Some text.
Proof.
  intros text. split; [by vm_compute|].
  apply (decode_encode (Some text) text). by vm_compute.
Defined.

Lemma decode_truncated_witness :
  let m := read_file (Some "abbcccc") ∅ in
  positive_counts m ∧ (1 < size m)%nat
  ∧ all_coded (build m) "c" = true
  ∧ get_character_code (build m) "a" = "0" +:+ "0"
  ∧ decode (build m) (encode_text (build m) "c" +:+ "0")
    = Some ("c" +:+ String Char.no_character "").
Proof.
  intros m.
  assert (positive_counts m) as Hpos by apply read_file_positive.
  assert (1 < size m)%nat as Hsize by (vm_compute; lia).
  assert (all_coded (build m) "c" = true) as Htext by (by vm_compute).
  assert (get_character_code (build m) "a" = "0" +:+ "0") as Hcode by (by vm_compute).
  split_and!; [done..|].
  by apply (decode_truncated m "c" "a" "0" "0").
Defined.

Lemma single_symbol_witness :
  let t := construct (Some "aaa") in
  size (frequencies t) = 1%nat ∧ is_Some (frequencies t !! "a"%char)
  ∧ get_character_code t "a" = "0"
  ∧ decode t "000" = Some "aaa".
Proof.
  intros t.
  assert (size (frequencies t) = 1%nat) as Hone by (by vm_compute).
  assert (is_Some (frequencies t !! "a"%char)) as Ha by (by exists 3).
  split_and!; [done..| |]; by apply (single_symbol (Some "aaa") "a").
Defined.

Lemma decode_invalid_character_witness :
  binary "0x1" = false ∧ decode (construct (Some "abbcccc")) "0x1" = Some "".
Proof. split; [done|]. by apply decode_invalid_character. Defined.

Lemma merge_loop_correct_witness :
  let q := [Node_new "a" 1; Node_new "b" 2; Node_new "c" 4] in
  is_heap q ∧ q ≠ [] ∧ Forall (λ n, 0 ≤ frequency n) q
  ∧ sum_with frequency q ≤ Int.max
  ∧ ∃ root, (∀ fuel, (3 ≤ fuel)%nat → merge_loop fuel q = [root])
            ∧ frequency root = 7.
Proof.
  intros q.
  assert (is_heap q) as Hq.
  { apply sorted_is_heap. apply (bool_decide_unpack _). by vm_compute. }
  assert (q ≠ []) as Hne by done.
  assert (Forall (λ n, 0 ≤ frequency n) q) as Hpos.
  { apply (bool_decide_unpack _). by vm_compute. }
  assert (sum_with frequency q ≤ Int.max) as Hmax by (by vm_compute).
  split_and!; [done..|].
  destruct (merge_loop_correct q Hq Hne Hpos Hmax)
    as [_ (root & Hloop & _ & Hroot & _)].
  exists root. by split.
Defined.

Lemma two_symbols c :
  is_Some (read_file (Some "ab") ∅ !! c) → c = "a"%char ∨ c = "b"%char.
Proof.
  rewrite lookup_read_file. simpl.
  destruct (decide (c = "a"%char)); [by left|].
  destruct (decide (c = "b"%char)); [by right|]. by intros [? ?].
Qed.

Lemma two_symbols_code :
  prefix_code (read_file (Some "ab") ∅)
    (λ c, if decide (c = "a"%char) then "0" else "1").
Proof.
  split.
  - by intros c [-> | ->]%two_symbols.
  - by intros c1 c2 [-> | ->]%two_symbols [-> | ->]%two_symbols.
Qed.

Lemma huffman_optimal_witness :
  let m := read_file (Some "ab") ∅ in
  let code := λ c, if decide (c = "a"%char) then "0" else "1" in
  positive_counts m ∧ ascii_table m ∧ sum_with snd (map_items m) ≤ Int.max
  ∧ prefix_code m code
  ∧ prefix_code m (get_character_code (build m))
  ∧ expected_length m (get_character_code (build m)) ≤ expected_length m code.
Proof.
  intros m code.
  assert (positive_counts m) as Hpos by apply read_file_positive.
  assert (ascii_table m) as Hascii by (by intros c [-> | ->]%two_symbols).
  assert (sum_with snd (map_items m) ≤ Int.max) as Hmax by (by vm_compute).
  destruct (huffman_optimal m Hpos Hascii Hmax) as [Hcode Hleast].
  split_and!; [done..|apply two_symbols_code|done|].
  apply Hleast, two_symbols_code.
Defined.

Lemma queue_after_construction_witness :
  let t := construct (Some "abbcccc") in
  file_size (Some "abbcccc") ≤ Int.max
  ∧ if decide (size (frequencies t) = 0%nat) then node_queue t = []
    else ∃ root, node_queue t = [root] ∧
                 frequency root = sum_with snd (map_items (frequencies t)) ∧
                 1 ≤ frequency root ≤ Int.max.
Proof.
  intros t. assert (file_size (Some "abbcccc") ≤ Int.max) as Hsize by (by vm_compute).
  split; [done|]. by apply (queue_after_construction (Some "abbcccc")).
Defined.

(** ** Examples *)

(** Runs of the code, with the library that keeps the vector sorted. *)

Example getlines_unterminated :
  getlines ("ab" +:+ String Char.newline "cd") = [("ab", true); ("cd", false)].
Proof. done. Qed.

Example getlines_terminated :
  getlines ("ab" +:+ String Char.newline "") = [("ab", true)].
Proof. done. Qed.

Example frequencies_example :
  map_items (frequencies (construct (Some ("ab" +:+ String Char.newline "b"))))
  = [(Char.newline, 1); ("a"%char, 1); ("b"%char, 2)].
Proof. by vm_compute. Qed.

Example codes_example :
  map_items (encoded_chars (construct (Some "abbcccc")))
  = [("a"%char, "00"); ("b"%char, "01"); ("c"%char, "1")].
Proof. by vm_compute. Qed.

Example encode_example : encode (construct (Some "abbcccc")) (Some "cab") = "10001".
Proof. by vm_compute. Qed.

Example encode_unknown_example : encode (construct (Some "abbcccc")) (Some "cxb") = "".
Proof. by vm_compute. Qed.

Example decode_example : decode (construct (Some "abbcccc")) "10001" = Some "cab".
Proof. by vm_compute. Qed.

(** The input ends after the first bit of the code of ['a']. *)
Example decode_truncated_example :
  decode (construct (Some "abbcccc")) "10" = Some ("c" +:+ String Char.no_character "").
Proof. by vm_compute. Qed.

Example decode_empty_example :
  encode (construct (Some "")) (Some "") = "" ∧ decode (construct (Some "")) "" = Some "".
Proof. by vm_compute. Qed.

(** * Further properties *)

(** ** Sums over a text *)

Lemma encode_text_sum t text :
  Z.of_nat (String.length (encode_text t text)) =
  sum_text (λ c, Z.of_nat (String.length (get_character_code t c))) text.
Proof.
  induction text as [|c text IH]; simpl; [done|]. rewrite length_append. lia.
Qed.

(** ** Which symbols are counted and which get codes *)

Lemma read_file_is_Some text c :
  is_Some (read_file (Some text) ∅ !! c) ↔ 0 < occurrences c text.
Proof.
  rewrite lookup_read_file. unfold bump. pose proof (occurrences_nonneg c text).
  case_decide; split; intros Hc; [by destruct Hc|lia|lia|by eexists].
Qed.

Lemma read_file_nonempty text : text ≠ "" → size (read_file (Some text) ∅) ≠ 0%nat.
Proof.
  destruct text as [|c text]; [done|]. intros _ Hsize%map_size_empty_inv.
  assert (is_Some (read_file (Some (String c text)) ∅ !! c)) as Hc.
  { apply read_file_is_Some. simpl. rewrite decide_True by done.
    pose proof (occurrences_nonneg c text). lia. }
  rewrite Hsize, lookup_empty in Hc. by destruct Hc.
Qed.

Lemma size_two_keys {V} (m : gmap ascii V) c c' :
  is_Some (m !! c) → is_Some (m !! c') → c ≠ c' → (1 < size m)%nat.
Proof.
  intros [v Hc] [v' Hc'] Hne.
  destruct (decide (size m = 0%nat)) as [Hzero|Hzero].
  { apply map_size_empty_inv in Hzero as ->. by rewrite lookup_empty in Hc. }
  destruct (decide (size m = 1%nat)) as [Hone|Hone]; [|lia].
  destruct (map_items_singleton m Hone) as (k & w & Hitems & _).
  apply elem_of_map_items in Hc, Hc'. rewrite Hitems in Hc, Hc'.
  apply list_elem_of_singleton in Hc, Hc'. congruence.
Qed.

(** Only symbols of the frequency table get codes, and a symbol with a
    negative character value only when it is the one symbol. *)
Lemma build_codes_domain `{HeapAlgorithms} (m : gmap ascii Z) (c : ascii) :
  positive_counts m → is_Some (encoded_chars (build m) !! c) →
  is_Some (m !! c) ∧ (size m = 1%nat ∨ Char.to_Z c >= 0).
Proof.
  intros Hpos [s Hs].
  destruct (decide (size m = 0%nat)) as [Hzero|Hzero].
  { destruct (build_empty m Hzero) as [_ Htable]. by rewrite Htable, lookup_empty in Hs. }
  destruct (build_spec m Hpos Hzero) as (T & Hm & _ & Htable). rewrite Htable in Hs.
  case_bool_decide as Hone.
  - destruct (map_items_singleton m Hone) as (k & w & Hitems & Hk).
    rewrite Hitems in Hs. simpl in Hs. apply lookup_singleton_Some in Hs as [<- _].
    split; [by eexists|by left].
  - apply lookup_code_table in Hs as [Hc (f & Hin)%find_code_Some].
    split; [|by right]. exists f. apply elem_of_map_items.
    rewrite <- leaf_forest_leaves, <- (huffman_merge_leaves _ _ Hm).
    apply list_elem_of_fmap. by exists (c, f, s).
Qed.

Lemma all_coded_occurs t text c :
  all_coded t text = true → 0 < occurrences c text → is_Some (encoded_chars t !! c).
Proof.
  induction text as [|x text IH]; simpl; [lia|].
  intros [Hx%bool_decide_eq_true Htext]%andb_true_iff Hc.
  destruct (decide (c = x)) as [->|]; [done|]. apply IH; [done|lia].
Qed.

Lemma occurs_all_coded t text :
  (∀ c, 0 < occurrences c text → is_Some (encoded_chars t !! c)) →
  all_coded t text = true.
Proof.
  induction text as [|x text IH]; intros Hall; simpl; [done|].
  apply andb_true_iff. split.
  - apply bool_decide_eq_true, Hall. simpl. rewrite decide_True by done.
    pose proof (occurrences_nonneg x text). lia.
  - apply IH. intros c Hc. apply Hall. simpl. case_decide; lia.
Qed.

Lemma ascii_text_occurs text c :
  ascii_text text = true → 0 < occurrences c text → Char.to_Z c >= 0.
Proof.
  induction text as [|x text IH]; simpl; [lia|].
  intros [Hx%bool_decide_eq_true Htext]%andb_true_iff Hc.
  destruct (decide (c = x)) as [->|]; [done|]. apply IH; [done|lia].
Qed.

(** X1. For a text of at most [Int.max] characters, the counts of the
    frequency table add up to the number of characters of the text, line
    terminators included, and every count is from 1 to [Int.max]. *)
Theorem read_file_total (text : string) :
  Z.of_nat (String.length text) ≤ Int.max →
  sum_with snd (map_items (read_file (Some text) ∅)) = Z.of_nat (String.length text)
  ∧ Forall (λ it, 1 ≤ it.2 ≤ Int.max) (map_items (read_file (Some text) ∅)).
Proof.
  intros Hsize. split; [apply (read_file_sum (Some text))|].
  apply Forall_forall. intros [c n] Hc%elem_of_map_items.
  by apply (read_file_fits (Some text) c).
Qed.

(** X2. After construction from a text that is not empty and has at most
    [Int.max] characters the queue holds the root alone, and the frequency
    of the root is the number of characters of the text. *)
Theorem root_frequency `{HeapAlgorithms} (text : string) :
  text ≠ "" → Z.of_nat (String.length text) ≤ Int.max →
  ∃ root, node_queue (construct (Some text)) = [root] ∧
          frequency root = Z.of_nat (String.length text) ∧
          1 ≤ frequency root ≤ Int.max.
Proof.
  intros Htext Hsize. unfold construct.
  destruct (build_spec (read_file (Some text) ∅)) as (T & Hm & Hq & _).
  { apply read_file_positive. }
  { by apply read_file_nonempty. }
  exists (to_node T).
  assert (frequency (to_node T) = Z.of_nat (String.length text)) as Hroot.
  { rewrite frequency_to_node, (huffman_merge_weight _ _ Hm), leaf_forest_weight.
    apply (read_file_sum (Some text)). }
  split_and!; [done..| |lia].
  rewrite Hroot. destruct text; [done|]. cbn [String.length]. lia.
Qed.

(** X3. The code table has an entry for a symbol exactly when the symbol
    is in the frequency table and either its character value is not
    negative or it is the only symbol. *)
Theorem code_table_domain `{HeapAlgorithms} (m : gmap ascii Z) (c : ascii) :
  positive_counts m →
  is_Some (encoded_chars (build m) !! c) ↔
  is_Some (m !! c) ∧ (size m = 1%nat ∨ Char.to_Z c >= 0).
Proof.
  intros Hpos. split.
  - by apply build_codes_domain.
  - intros [Hc Hcase]. by apply build_codes_complete.
Qed.

(** X4. For a character with a value from 0 to 127, [get_character_code]
    is not empty exactly when the character occurs in the file the object
    was built from. *)
Theorem get_character_code_occurs `{HeapAlgorithms} (text : string) (c : ascii) :
  Char.to_Z c >= 0 →
  get_character_code (construct (Some text)) c ≠ "" ↔ 0 < occurrences c text.
Proof.
  intros Hc. unfold construct, get_character_code.
  set (m := read_file (Some text) ∅).
  pose proof (read_file_positive (Some text)) as Hpos. fold m in Hpos.
  rewrite <- read_file_is_Some. fold m. split.
  - destruct (encoded_chars (build m) !! c) as [s|] eqn:Hs; [|done].
    intros _. by apply (build_codes_domain m c Hpos).
  - intros Hin. destruct (build_codes_complete m c Hpos Hin) as [s Hs]; [by right|].
    rewrite Hs. by apply (build_codes m Hpos) in Hs as [? _].
Qed.

(** X5. A file with a character that does not occur in the file the
    object was built from is encoded to the empty string. *)
Theorem encode_unknown_symbol `{HeapAlgorithms} (source text : string) (c : ascii) :
  occurrences c source = 0 → 0 < occurrences c text →
  encode (construct (Some source)) (Some text) = "".
Proof.
  intros Hsource Htext. rewrite encode_text_spec.
  destruct (all_coded _ text) eqn:Hcoded; [|done].
  apply (all_coded_occurs _ _ c) in Hcoded; [|done].
  apply build_codes_domain in Hcoded as [Hc%read_file_is_Some _]; [lia|].
  apply read_file_positive.
Qed.

(** X6. When the file has two different characters and one of them has a
    negative character value (a byte from 128 to 255), the object built
    from the file encodes that very file to the empty string. *)
Theorem encode_negative_character `{HeapAlgorithms} (text : string) (c c' : ascii) :
  0 < occurrences c text → Char.to_Z c < 0 →
  0 < occurrences c' text → c ≠ c' →
  encode (construct (Some text)) (Some text) = "".
Proof.
  intros Hc Hneg Hc' Hne. rewrite encode_text_spec.
  destruct (all_coded _ text) eqn:Hcoded; [|done].
  apply (all_coded_occurs _ _ c) in Hcoded; [|done].
  apply build_codes_domain in Hcoded as [_ [Hone|?]]; [|lia|apply read_file_positive].
  pose proof (size_two_keys (read_file (Some text) ∅) c c') as Hsize.
  rewrite !read_file_is_Some in Hsize. specialize (Hsize Hc Hc' Hne). lia.
Qed.

(** X7. The length of the encoding of a text all of whose characters have
    codes is the sum, over the frequency table of that text, of count
    times length of the code word. *)
Theorem encode_length (t : huffman_tree) (text : string) :
  all_coded t text = true →
  Z.of_nat (String.length (encode t (Some text))) =
  expected_length (read_file (Some text) ∅) (get_character_code t).
Proof.
  intros Htext. rewrite encode_text_spec, Htext, encode_text_sum.
  unfold expected_length.
  by rewrite (sum_read_file (λ c, Z.of_nat (String.length (get_character_code t c)))).
Qed.

(** ** [decode] and [encode], both ways *)

Lemma build_decode_encode `{HeapAlgorithms} (m : gmap ascii Z) (text : string) :
  positive_counts m → all_coded (build m) text = true →
  decode (build m) (encode_text (build m) text) = Some text.
Proof.
  intros Hpos Htext. unfold decode. rewrite build_frequencies.
  destruct (decide (size m = 0%nat)) as [Hzero|Hzero].
  { rewrite !bool_decide_eq_false_2 by lia.
    destruct (build_empty m Hzero) as [_ Htable].
    destruct text as [|c text]; [done|]. cbn [all_coded] in Htext.
    by rewrite Htable, lookup_empty, bool_decide_eq_false_2 in Htext by (by intros [? ?]). }
  destruct (build_spec m Hpos Hzero) as (T & Hm & Hq & Htable).
  destruct (decide (size m = 1%nat)) as [Hone|Hone].
  - rewrite bool_decide_eq_false_2 by lia.
    rewrite bool_decide_eq_true_2 in * by done.
    destruct (map_items_singleton m Hone) as (c & n & Hitems & _).
    rewrite Hitems in *. simpl. by rewrite (decode_only_encoded _ c).
  - rewrite bool_decide_eq_true_2 by lia.
    rewrite bool_decide_eq_false_2 in Htable by done.
    destruct (huffman_merge_inner _ _ Hm) as (l & r & ->).
    { rewrite leaf_forest_length. lia. }
    rewrite Hq. simpl head.
    eapply decode_loop_mono; [|by apply (encode_text_length _ l r)].
    rewrite <- (append_nil_r (encode_text _ text)).
    rewrite <- (Nat.add_0_r (String.length text)).
    by apply (decode_loop_encoded _ l r).
Qed.

(** A text over the characters 0 to 127 can be encoded by the object
    built from it. *)
Lemma source_all_coded `{HeapAlgorithms} (text : string) :
  ascii_text text = true → all_coded (construct (Some text)) text = true.
Proof.
  intros Hascii. apply occurs_all_coded. intros c Hc.
  apply build_codes_complete.
  - apply read_file_positive.
  - by apply read_file_is_Some.
  - right. by apply (ascii_text_occurs text).
Qed.

(** X8. A text over the characters 0 to 127 comes back unchanged when it
    is encoded and then decoded by the object built from that same text. *)
Theorem decode_encode_source `{HeapAlgorithms} (text : string) :
  ascii_text text = true →
  decode (construct (Some text)) (encode (construct (Some text)) (Some text))
  = Some text.
Proof.
  intros Hascii. pose proof (source_all_coded text Hascii) as Hcoded.
  rewrite encode_text_spec, Hcoded.
  apply build_decode_encode; [apply read_file_positive|done].
Qed.

(** X9. Two texts all of whose characters have codes and that are encoded
    to the same string are the same text. *)
Theorem encode_injective `{HeapAlgorithms} (file : option string) (text1 text2 : string) :
  all_coded (construct file) text1 = true →
  all_coded (construct file) text2 = true →
  encode (construct file) (Some text1) = encode (construct file) (Some text2) →
  text1 = text2.
Proof.
  intros H1 H2. rewrite !encode_text_spec, H1, H2. intros Heq.
  pose proof (build_decode_encode _ text1 (read_file_positive file) H1) as Hd1.
  pose proof (build_decode_encode _ text2 (read_file_positive file) H2) as Hd2.
  unfold construct in Heq. rewrite Heq in Hd1. congruence.
Qed.

(** The walk ends at a leaf with a character that is not negative only
    after reading the bits of that leaf. *)
Lemma traverse_leaf_inv t s node s' :
  traverse (Some (to_node t)) s = Some (Some node, s') →
  Char.to_Z (character node) >= 0 →
  ∃ f p, (character node, f, p) ∈ coded t ∧ s = p +:+ s'.
Proof.
  revert s. induction t as [c f|l IHl r IHr]; intros s.
  - destruct (decide (Char.to_Z c >= 0)) as [Hc|Hc].
    + rewrite traverse_leaf by done. intros [= <- <-] _.
      exists f, "". split; [by left|done].
    + destruct s as [|b s]; simpl; rewrite bool_decide_eq_true_2 by lia.
      * by intros [= <- <-].
      * destruct (decide (b = "0"%char)); [by destruct s|].
        destruct (decide (b = "1"%char)); [by destruct s|done].
  - destruct s as [|b s]; [by intros [= <- <-]|].
    rewrite traverse_inner_cons.
    destruct (decide (b = "0"%char)) as [->|]; [|destruct (decide (b = "1"%char)) as [->|]; [|done]].
    + intros Htr Hnode. destruct (IHl _ Htr Hnode) as (f & p & Hin & ->).
      exists f, (String "0" p). split; [|done].
      apply elem_of_coded_inner. left. by exists (character node, f, p).
    + intros Htr Hnode. destruct (IHr _ Htr Hnode) as (f & p & Hin & ->).
      exists f, (String "1" p). split; [|done].
      apply elem_of_coded_inner. right. by exists (character node, f, p).
Qed.

Section decode_back.
Variables (t : huffman_tree) (l r : htree).
Hypothesis Htable : encoded_chars t = encode_characters "" (to_node (Inner l r)) ∅.
Hypothesis Hnodup : NoDup (leaves (Inner l r)).*1.

Lemma code_of_leaf_inv c f p :
  (c, f, p) ∈ coded (Inner l r) → Char.to_Z c >= 0 → encoded_chars t !! c = Some p.
Proof using Htable Hnodup.
  intros Hin Hc. rewrite Htable. apply lookup_code_table. split; [done|].
  by apply (find_code_elem c f).
Qed.

(** What the outer loop returns is empty, or continues what was decoded
    before with a text whose codes, if its characters are not negative,
    make up the input. *)
Lemma decode_loop_inv fuel s decoded res :
  decode_loop fuel (Some (to_node (Inner l r))) s decoded = Some res →
  res = "" ∨
  ∃ text, res = decoded +:+ text ∧
          (ascii_text text = true →
           all_coded t text = true ∧ encode_text t text = s).
Proof using Htable Hnodup.
  revert s decoded. induction fuel as [|fuel IH]; intros s decoded.
  - destruct s; [|done]. intros [= <-]. right. exists "". by rewrite append_nil_r.
  - destruct s as [|b s].
    { intros [= <-]. right. exists "". by rewrite append_nil_r. }
    rewrite decode_loop_step.
    destruct (traverse _ (String b s)) as [[[node|] s']|] eqn:E;
      [|intros [= <-]; by left..].
    intros [->|(text & -> & Htext)]%IH; [by left|]. right.
    exists (String (character node) text). split; [by rewrite append_assoc|].
    cbn [ascii_text]. intros [Hc%bool_decide_eq_true Hascii]%andb_true_iff.
    destruct (Htext Hascii) as [Hcoded <-].
    destruct (traverse_leaf_inv _ _ _ _ E Hc) as (f & p & Hin & ->).
    pose proof (code_of_leaf_inv _ f p Hin Hc) as Hp.
    cbn [all_coded encode_text]. unfold get_character_code. rewrite Hp.
    split; [|done]. rewrite Hcoded, andb_true_r. by apply bool_decide_eq_true.
Qed.
End decode_back.

Lemma decode_only_spec c s decoded :
  decode_only c s decoded =
    if zeros s then decoded +:+ copies (String.length s) c else "".
Proof.
  revert decoded. induction s as [|b s IH]; intros decoded; simpl.
  - by rewrite append_nil_r.
  - destruct (decide (b = "0"%char)) as [->|Hb].
    + rewrite bool_decide_eq_true_2 by done. simpl. rewrite IH.
      destruct (zeros s); [|done]. by rewrite append_assoc.
    + by rewrite bool_decide_eq_false_2.
Qed.

Lemma zeros_copies s : zeros s = true → s = copies (String.length s) "0".
Proof.
  induction s as [|b s IH]; simpl; [done|].
  intros [->%bool_decide_eq_true Hs]%andb_true_iff. by rewrite <- IH.
Qed.

Lemma encode_text_copies t c n :
  encoded_chars t = {[ c := "0" ]} →
  all_coded t (copies n c) = true ∧ encode_text t (copies n c) = copies n "0".
Proof.
  intros Htable. induction n as [|n [IH1 IH2]]; [done|]. cbn [copies all_coded encode_text].
  unfold get_character_code. rewrite Htable, lookup_singleton_eq, IH1, IH2. split; [|done].
  rewrite andb_true_r. apply bool_decide_eq_true. by eexists.
Qed.

(** X10. When [decode] returns a text that is not empty and has no
    character with a negative value, encoding that text gives back the
    very string that was decoded. *)
Theorem encode_decode `{HeapAlgorithms} (file : option string) (s text : string) :
  decode (construct file) s = Some text →
  text ≠ "" → ascii_text text = true →
  encode (construct file) (Some text) = s.
Proof.
  unfold construct. set (m := read_file file ∅).
  pose proof (read_file_positive file) as Hpos. fold m in Hpos.
  unfold decode. rewrite build_frequencies. intros Hdec Htext Hascii.
  rewrite encode_text_spec.
  destruct (decide (size m = 0%nat)) as [Hzero|Hzero].
  { rewrite !bool_decide_eq_false_2 in Hdec by lia. congruence. }
  destruct (build_spec m Hpos Hzero) as (T & Hm & Hq & Htable).
  destruct (decide (size m = 1%nat)) as [Hone|Hone].
  - rewrite bool_decide_eq_false_2 in Hdec by lia.
    rewrite bool_decide_eq_true_2 in Hdec, Htable by done.
    destruct (map_items_singleton m Hone) as (c & n & Hitems & _).
    rewrite Hitems in Hdec, Htable. cbn [fst] in Hdec, Htable.
    rewrite decode_only_spec in Hdec. destruct (zeros s) eqn:Hz; [|congruence].
    injection Hdec as <-. cbn [String.append].
    destruct (encode_text_copies _ c (String.length s) Htable) as [-> ->].
    symmetry. by apply zeros_copies.
  - rewrite bool_decide_eq_true_2 in Hdec by lia.
    rewrite bool_decide_eq_false_2 in Htable by done.
    destruct (huffman_merge_inner _ _ Hm) as (l & r & ->).
    { rewrite leaf_forest_length. lia. }
    rewrite Hq in Hdec. simpl head in Hdec.
    assert (NoDup (leaves (Inner l r)).*1) as Hnodup.
    { rewrite (huffman_merge_leaves _ _ Hm), leaf_forest_leaves.
      apply NoDup_map_items_fst. }
    apply (decode_loop_inv _ l r Htable Hnodup) in Hdec as [->|(text' & -> & Hback)];
      [done|].
    cbn [String.append] in *. by destruct (Hback Hascii) as [-> ->].
Qed.

(** X11. With exactly one symbol, [decode] turns a string of ['0']s into
    as many copies of the symbol, and every other string, also one with a
    ['1'], into the empty string. *)
Theorem decode_one_symbol `{HeapAlgorithms} (file : option string) (c : ascii) (s : string) :
  size (frequencies (construct file)) = 1%nat →
  is_Some (frequencies (construct file) !! c) →
  decode (construct file) s =
    Some (if zeros s then copies (String.length s) c else "").
Proof.
  unfold construct, decode. rewrite build_frequencies.
  set (m := read_file file ∅). intros Hone [n Hc].
  rewrite bool_decide_eq_false_2 by lia. rewrite bool_decide_eq_true_2 by done.
  destruct (map_items_singleton m Hone) as (c' & n' & Hitems & _).
  apply elem_of_map_items in Hc. rewrite Hitems in Hc |- *.
  apply list_elem_of_singleton in Hc as [= <- <-]. cbn [fst].
  by rewrite decode_only_spec.
Qed.

(** ** What [decode] returns *)

Lemma decode_loop_length fuel n0 s decoded res :
  Char.to_Z (character n0) < 0 →
  decode_loop fuel (Some n0) s decoded = Some res →
  (String.length res ≤ String.length decoded + String.length s)%nat.
Proof.
  intros Hn0. revert s decoded. induction fuel as [|fuel IH]; intros s decoded.
  - destruct s; [|done]. intros [= <-]. lia.
  - destruct s as [|b s]; [intros [= <-]; lia|]. rewrite decode_loop_step.
    destruct (traverse (Some n0) (String b s)) as [[[node|] s']|] eqn:E;
      [|intros [= <-]; simpl; lia..].
    intros Hres%IH. apply traverse_progress in E; [|done].
    rewrite length_append in Hres. simpl in *. lia.
Qed.

Lemma length_copies n c : String.length (copies n c) = n.
Proof. induction n as [|n IH]; simpl; by f_equal. Qed.

(** X12. [decode] never returns more characters than it was given. *)
Theorem decode_length `{HeapAlgorithms} (file : option string) (s text : string) :
  decode (construct file) s = Some text →
  (String.length text ≤ String.length s)%nat.
Proof.
  unfold construct, decode. rewrite build_frequencies.
  set (m := read_file file ∅).
  case_bool_decide as Hsize; [|case_bool_decide as Hone].
  - destruct (build_spec m) as (T & Hm & -> & _); [apply read_file_positive|lia|].
    destruct (huffman_merge_inner _ _ Hm) as (l & r & ->).
    { by rewrite leaf_forest_length. }
    intros Hres%decode_loop_length; [|done]. simpl in Hres. lia.
  - destruct (map_items_singleton m Hone) as (c & n & -> & _). cbn [fst].
    rewrite decode_only_spec. intros [= <-].
    destruct (zeros s); simpl; [|lia]. by rewrite length_copies.
  - intros [= <-]. simpl. lia.
Qed.

(** In a tree without negative characters a walk over bits always ends at
    a node. *)
Lemma traverse_ascii t s :
  Forall (λ x, Char.to_Z x.1.1 >= 0) (coded t) → binary s = true →
  ∃ node s', traverse (Some (to_node t)) s = Some (Some node, s') ∧ binary s' = true.
Proof.
  revert s. induction t as [c f|l IHl r IHr]; intros s Hall Hs.
  - apply Forall_inv in Hall.
    rewrite (traverse_leaf c f s Hall). by eexists _, _.
  - cbn [coded] in Hall. rewrite Forall_forall in Hall.
    destruct s as [|b s]; [by eexists _, _|].
    rewrite traverse_inner_cons. simpl in Hs.
    apply andb_true_iff in Hs as [[->%bool_decide_eq_true| ->%bool_decide_eq_true]%orb_true_iff Hs].
    + rewrite decide_True by done. apply IHl; [|done].
      apply Forall_forall. intros x Hx. apply (Hall (x.1, String "0" x.2)).
      apply elem_of_app. left. apply list_elem_of_fmap. by exists x.
    + rewrite decide_False, decide_True by done. apply IHr; [|done].
      apply Forall_forall. intros x Hx. apply (Hall (x.1, String "1" x.2)).
      apply elem_of_app. right. apply list_elem_of_fmap. by exists x.
Qed.

Lemma decode_loop_grows fuel l r s decoded res :
  Forall (λ x, Char.to_Z x.1.1 >= 0) (coded (Inner l r)) →
  decode_loop fuel (Some (to_node (Inner l r))) s decoded = Some res →
  binary s = true →
  (String.length decoded ≤ String.length res)%nat ∧
  (s ≠ "" → (String.length decoded < String.length res)%nat).
Proof.
  intros Hall. revert s decoded. induction fuel as [|fuel IH]; intros s decoded.
  - destruct s; [|done]. by intros [= <-].
  - destruct s as [|b s]; [by intros [= <-]|]. rewrite decode_loop_step. intros Hres Hs.
    destruct (traverse_ascii (Inner l r) (String b s) Hall Hs) as (node & s' & E & Hs').
    rewrite E in Hres. apply IH in Hres as [Hres _]; [|done].
    rewrite length_append in Hres. simpl in Hres. split; [lia|intros _; lia].
Qed.

(** X13. For an object built from a text over the characters 0 to 127
    with two or more different characters, [decode] returns the empty
    string only for the empty string and for strings with a character that
    is not a bit: every other string gives some output. *)
Theorem decode_empty_iff `{HeapAlgorithms} (text s : string) :
  ascii_text text = true →
  (1 < size (frequencies (construct (Some text))))%nat →
  decode (construct (Some text)) s = Some "" ↔ s = "" ∨ binary s = false.
Proof.
  unfold construct, decode. rewrite build_frequencies.
  set (m := read_file (Some text) ∅). intros Hascii Hsize.
  rewrite bool_decide_eq_true_2 by done.
  destruct (build_spec m) as (T & Hm & -> & _); [apply read_file_positive|lia|].
  destruct (huffman_merge_inner _ _ Hm) as (l & r & ->).
  { by rewrite leaf_forest_length. }
  simpl head. split.
  - intros Hres. destruct (binary s) eqn:Hs; [left|by right].
    destruct (decide (s = "")) as [|Hne]; [done|].
    eapply decode_loop_grows in Hres as [_ Hres]; [| |done].
    + specialize (Hres Hne). simpl in Hres. lia.
    + apply Forall_forall. intros [[c f] p] Hin. simpl.
      apply (ascii_text_occurs text); [done|]. apply read_file_is_Some. exists f.
      apply (elem_of_map_items m).
      assert (leaves (Inner l r) ≡ₚ map_items m) as Hperm.
      { by rewrite (huffman_merge_leaves _ _ Hm), leaf_forest_leaves. }
      rewrite <- Hperm. apply list_elem_of_fmap. by exists (c, f, p).
  - intros [->|Hs]; [done|]. by apply decode_loop_invalid.
Qed.

(** ** What [encode] returns *)

Lemma binary_append s1 s2 : binary (s1 +:+ s2) = binary s1 && binary s2.
Proof. induction s1 as [|b s1 IH]; simpl; [done|]. by rewrite IH, andb_assoc. Qed.

(** X14. The result of [encode] consists of the characters ['0'] and
    ['1'] only. *)
Theorem encode_binary `{HeapAlgorithms} (file source : option string) :
  binary (encode (construct file) source) = true.
Proof.
  destruct source as [text|]; [|done]. rewrite encode_text_spec.
  destruct (all_coded _ text) eqn:Htext; [|done].
  induction text as [|c text IH]; [done|]. cbn [all_coded encode_text] in *.
  apply andb_true_iff in Htext as [[s Hs]%bool_decide_eq_true Htext].
  rewrite binary_append, (IH Htext), andb_true_r.
  unfold get_character_code. rewrite Hs.
  by apply (build_codes _ (read_file_positive file)) in Hs as [_ ?].
Qed.

(** X15. Encoding is compositional: the encoding of two texts put
    together is the two encodings put together, when all the characters
    have codes. *)
Theorem encode_append (t : huffman_tree) (text1 text2 : string) :
  all_coded t text1 = true → all_coded t text2 = true →
  encode t (Some (text1 +:+ text2)) = encode t (Some text1) +:+ encode t (Some text2).
Proof.
  intros H1 H2. rewrite !encode_text_spec, all_coded_append, H1, H2.
  apply encode_text_append.
Qed.

(** X16. An object built from a file that cannot be opened, or from an
    empty file, has no codes and no tree: [get_character_code] and [encode]
    return the empty string for every argument, and so does [decode]; the
    destructor deletes nothing. *)
Theorem construct_empty `{HeapAlgorithms} (file : option string) :
  file = None ∨ file = Some "" →
  let t := construct file in
  encoded_chars t = ∅ ∧ node_queue t = [] ∧
  (∀ c, get_character_code t c = "") ∧
  (∀ source, encode t source = "") ∧
  (∀ s, decode t s = Some "") ∧
  destroy t = ([], []).
Proof.
  intros Hfile t.
  assert (read_file file ∅ = ∅) as Hm by (by destruct Hfile as [-> | ->]).
  subst t. unfold construct. rewrite Hm.
  destruct (build_empty ∅) as [Hq Htable]; [apply map_size_empty|].
  split_and!; [done..| | | |by unfold destroy; rewrite Hq].
  - intros c. unfold get_character_code. by rewrite Htable, lookup_empty.
  - intros [text|]; [|done]. rewrite encode_text_spec.
    destruct text as [|c text]; [done|]. cbn [all_coded].
    rewrite Htable, lookup_empty, bool_decide_eq_false_2; [done|]. by intros [? ?].
  - intros s. unfold decode. rewrite build_frequencies, map_size_empty.
    by rewrite !bool_decide_eq_false_2 by lia.
Qed.

(** ** The lengths of the codes *)

Lemma length_coded_pos t : (0 < length (coded t))%nat.
Proof. induction t; simpl; [lia|]. rewrite length_app, !length_fmap. lia. Qed.

(** A leaf is less deep than the tree has leaves. *)
Lemma coded_depth t x : x ∈ coded t → (S (String.length x.2) ≤ length (coded t))%nat.
Proof.
  revert x. induction t as [c f|l IHl r IHr]; intros x.
  - intros ->%list_elem_of_singleton. simpl. lia.
  - intros [(y & Hy%IHl & ->)|(y & Hy%IHr & ->)]%elem_of_coded_inner;
      cbn [coded]; rewrite length_app, !length_fmap; simpl.
    + pose proof (length_coded_pos r). lia.
    + pose proof (length_coded_pos l). lia.
Qed.

Lemma merge_leaves m T : huffman_merge (leaf_forest m) T → leaves T ≡ₚ map_items m.
Proof. intros Hm. by rewrite (huffman_merge_leaves _ _ Hm), leaf_forest_leaves. Qed.

Lemma length_coded m T : huffman_merge (leaf_forest m) T → length (coded T) = size m.
Proof.
  intros Hm%merge_leaves. rewrite <- length_map_items, <- Hm.
  unfold leaves. by rewrite length_fmap.
Qed.

Lemma build_code_length `{HeapAlgorithms} (m : gmap ascii Z) (c : ascii) (s : string) :
  positive_counts m → encoded_chars (build m) !! c = Some s →
  (1 ≤ String.length s ≤ Nat.max 1 (size m - 1))%nat.
Proof.
  intros Hpos Hs.
  destruct (decide (size m = 0%nat)) as [Hzero|Hzero].
  { destruct (build_empty m Hzero) as [_ Htable]. by rewrite Htable, lookup_empty in Hs. }
  destruct (build_spec m Hpos Hzero) as (T & Hm & _ & Htable).
  rewrite Htable in Hs. case_bool_decide as Hone.
  - destruct (map_items_singleton m Hone) as (k & w & Hitems & _). rewrite Hitems in Hs.
    apply lookup_singleton_Some in Hs as [_ <-]. simpl. lia.
  - apply lookup_code_table in Hs as [_ (f & Hin)%find_code_Some].
    destruct (huffman_merge_inner _ _ Hm) as (l & r & ->).
    { rewrite leaf_forest_length. lia. }
    pose proof (coded_nonempty _ _ _ Hin) as Hne.
    pose proof (coded_depth _ _ Hin) as Hd.
    rewrite (length_coded m _ Hm) in Hd. cbn [snd] in Hne, Hd.
    destruct s; [done|]. cbn [String.length] in *. lia.
Qed.

(** X17. A code has at least one bit and at most N - 1 bits, where N is
    the number of different characters of the file (one bit for N = 1). *)
Theorem code_length_bound `{HeapAlgorithms} (file : option string) (c : ascii) (s : string) :
  encoded_chars (construct file) !! c = Some s →
  (1 ≤ String.length s ≤ Nat.max 1 (size (frequencies (construct file)) - 1))%nat.
Proof.
  unfold construct. rewrite build_frequencies.
  apply build_code_length, read_file_positive.
Qed.

Lemma encode_text_bounds t text lo hi :
  (∀ c s, encoded_chars t !! c = Some s → (lo ≤ String.length s ≤ hi)%nat) →
  all_coded t text = true →
  (lo * String.length text ≤ String.length (encode_text t text)
     ≤ hi * String.length text)%nat.
Proof.
  intros Hb. induction text as [|c text IH]; cbn [all_coded encode_text String.length].
  - lia.
  - intros [[s Hs]%bool_decide_eq_true Htext%IH]%andb_true_iff.
    rewrite length_append. unfold get_character_code at 1 2. rewrite Hs.
    apply Hb in Hs. lia.
Qed.

(** X18. The encoding of a text whose characters all have codes has at
    least as many bits as the text has characters, and at most N - 1 times
    as many (as many, for N = 1). *)
Theorem encode_size_bounds `{HeapAlgorithms} (file : option string) (text : string) :
  all_coded (construct file) text = true →
  (String.length text ≤ String.length (encode (construct file) (Some text))
     ≤ Nat.max 1 (size (frequencies (construct file)) - 1) * String.length text)%nat.
Proof.
  intros Htext. rewrite encode_text_spec, Htext.
  pose proof (encode_text_bounds (construct file) text 1
                (Nat.max 1 (size (frequencies (construct file)) - 1))) as Hb.
  rewrite Nat.mul_1_l in Hb. apply Hb; [|done].
  intros c s. unfold construct. rewrite build_frequencies.
  apply build_code_length, read_file_positive.
Qed.

(** ** More frequent characters have shorter codes *)

Lemma tree_depths_coded t :
  tree_depths ((λ x : ascii * Z * string, String.length x.2) <$> coded t).
Proof.
  induction t as [c f|l IHl r IHr]; [constructor|]. cbn [coded].
  rewrite fmap_app, <- !list_fmap_compose.
  pose proof (depths_node _ _ IHl IHr) as Hd.
  by rewrite fmap_app, <- !list_fmap_compose in Hd.
Qed.

Lemma dot_fmap {A} (f : A → Z) (g : A → nat) l :
  dot (f <$> l) (g <$> l) = sum_with (λ x, f x * Z.of_nat (g x)) l.
Proof. induction l as [|x l IH]; simpl; [done|]. f_equal. exact IH. Qed.

Lemma dot_two W1 a W2 b W3 D1 da D2 db D3 :
  length W1 = length D1 → length W2 = length D2 →
  dot (W1 ++ a :: W2 ++ b :: W3) (D1 ++ da :: D2 ++ db :: D3) =
    a * Z.of_nat da + b * Z.of_nat db + dot ((W1 ++ W2) ++ W3) ((D1 ++ D2) ++ D3).
Proof.
  intros H1 H2. rewrite dot_insert by done. rewrite !app_assoc.
  rewrite dot_insert by (rewrite !length_app; lia). lia.
Qed.

Lemma Permutation_two {A} (l1 l2 l3 : list A) a b :
  l1 ++ a :: l2 ++ b :: l3 ≡ₚ l1 ++ b :: l2 ++ a :: l3.
Proof. rewrite <- !Permutation_middle. apply perm_swap. Qed.

Lemma elem_two_split {A} (l : list A) x y :
  x ∈ l → y ∈ l → x ≠ y →
  ∃ p1 p2 p3, l = p1 ++ x :: p2 ++ y :: p3 ∨ l = p1 ++ y :: p2 ++ x :: p3.
Proof.
  intros (a & b & ->)%list_elem_of_split Hy Hne. apply elem_of_app in Hy as [Hy|Hy].
  - apply list_elem_of_split in Hy as (a1 & a2 & ->). exists a1, a2, b. right.
    by rewrite <- app_assoc.
  - apply elem_of_cons in Hy as [->|Hy]; [done|].
    apply list_elem_of_split in Hy as (b1 & b2 & ->). exists a, b1, b2. by left.
Qed.

(** In a tree of Huffman's algorithm, giving two leaves each other's place
    does not make the tree cheaper. *)
Lemma optimal_order ts T p1 p2 p3 (x y : ascii * Z * string) :
  huffman_merge ts T → Forall (λ u, 0 ≤ weight u) ts → sum_with wpl ts = 0 →
  (λ x : ascii * Z * string, x.1.2) <$> coded T ≡ₚ weight <$> ts →
  coded T = p1 ++ x :: p2 ++ y :: p3 →
  0 ≤ (y.1.2 - x.1.2) * (Z.of_nat (String.length x.2) - Z.of_nat (String.length y.2)).
Proof.
  intros Hm Hpos Hzero Hperm Hsplit.
  set (w := λ x : ascii * Z * string, x.1.2) in *.
  set (d := λ x : ascii * Z * string, String.length x.2).
  assert (d <$> coded T = (d <$> p1) ++ d x :: (d <$> p2) ++ d y :: (d <$> p3)) as Hd.
  { by rewrite Hsplit, fmap_app, fmap_cons, fmap_app, fmap_cons. }
  assert (w <$> coded T = (w <$> p1) ++ w x :: (w <$> p2) ++ w y :: (w <$> p3)) as Hw.
  { by rewrite Hsplit, fmap_app, fmap_cons, fmap_app, fmap_cons. }
  assert (wpl T = dot (w <$> coded T) (d <$> coded T)) as Hwpl.
  { by rewrite wpl_coded, dot_fmap. }
  pose proof (huffman_merge_optimal _ _ Hm Hpos
    ((w <$> p1) ++ w y :: (w <$> p2) ++ w x :: (w <$> p3))
    (d <$> coded T) (tree_depths_coded T)) as Hopt.
  rewrite Hzero, Hwpl, Hw, Hd in Hopt. rewrite Hw in Hperm.
  rewrite !dot_two in Hopt by (by rewrite !length_fmap).
  assert (w x * Z.of_nat (d x) + w y * Z.of_nat (d y)
          ≤ w y * Z.of_nat (d x) + w x * Z.of_nat (d y)); [|unfold w, d in *; lia].
  apply Z.add_le_mono_r with
    (dot (((w <$> p1) ++ (w <$> p2)) ++ (w <$> p3)) (((d <$> p1) ++ (d <$> p2)) ++ (d <$> p3))).
  rewrite Z.add_0_l in Hopt. apply Hopt.
  - rewrite !length_app. simpl. rewrite !length_app. simpl.
    by rewrite !length_fmap.
  - rewrite <- Hperm. apply Permutation_two.
Qed.

Lemma read_file_lookup text c f :
  read_file (Some text) ∅ !! c = Some f → f = occurrences c text.
Proof.
  rewrite lookup_read_file. unfold bump. case_decide; [done|]. intros [= <-]. simpl. lia.
Qed.

(** X19. A character that occurs more often in the file never has a
    longer code than one that occurs less often. *)
Theorem code_length_monotone `{HeapAlgorithms} (text : string) (c1 c2 : ascii)
    (s1 s2 : string) :
  encoded_chars (construct (Some text)) !! c1 = Some s1 →
  encoded_chars (construct (Some text)) !! c2 = Some s2 →
  occurrences c1 text < occurrences c2 text →
  (String.length s2 ≤ String.length s1)%nat.
Proof.
  unfold construct. set (m := read_file (Some text) ∅). intros Hs1 Hs2 Hocc.
  assert (positive_counts m) as Hpos by apply read_file_positive.
  destruct (decide (size m = 0%nat)) as [Hzero|Hzero].
  { destruct (build_empty m Hzero) as [_ Htable]. by rewrite Htable, lookup_empty in Hs1. }
  destruct (build_spec m Hpos Hzero) as (T & Hm & _ & Htable).
  rewrite Htable in Hs1, Hs2. case_bool_decide as Hone.
  { destruct (map_items_singleton m Hone) as (k & w & Hitems & _).
    rewrite Hitems in Hs1, Hs2.
    apply lookup_singleton_Some in Hs1 as [<- _].
    apply lookup_singleton_Some in Hs2 as [<- _]. lia. }
  apply lookup_code_table in Hs1 as [_ (f1 & Hin1)%find_code_Some].
  apply lookup_code_table in Hs2 as [_ (f2 & Hin2)%find_code_Some].
  pose proof (merge_leaves m T Hm) as Hleaves.
  assert (∀ c f s, (c, f, s) ∈ coded T → f = occurrences c text) as Hcount.
  { intros c f s Hin. apply read_file_lookup. apply (elem_of_map_items m).
    rewrite <- Hleaves. apply list_elem_of_fmap. by exists (c, f, s). }
  pose proof (Hcount _ _ _ Hin1) as ->. pose proof (Hcount _ _ _ Hin2) as ->.
  destruct (elem_two_split (coded T) _ _ Hin1 Hin2) as (p1 & p2 & p3 & Hsplit).
  { intros [= -> _]. lia. }
  assert (Forall (λ u, 0 ≤ weight u) (leaf_forest m)) as Hweights.
  { apply Forall_fmap, Forall_forall. intros [c n] Hc%elem_of_map_items. simpl.
    apply Hpos in Hc. lia. }
  assert ((λ x : ascii * Z * string, x.1.2) <$> coded T ≡ₚ weight <$> leaf_forest m)
    as Hperm.
  { unfold leaf_forest. rewrite <- list_fmap_compose.
    change (weight ∘ _) with (snd : ascii * Z → Z). rewrite <- Hleaves.
    unfold leaves. by rewrite <- list_fmap_compose. }
  destruct Hsplit as [Hsplit|Hsplit];
    pose proof (optimal_order _ _ _ _ _ _ _ Hm Hweights (leaf_forest_wpl m) Hperm Hsplit)
      as Hord; simpl in Hord; nia.
Qed.

(** ** The tree and its nodes *)

Lemma weight_pos t : Forall (λ it, 0 < it.2) (leaves t) → 0 < weight t.
Proof.
  induction t as [c f|l IHl r IHr]; [by intros ?%Forall_inv|].
  rewrite leaves_inner. intros [Hl%IHl Hr%IHr]%Forall_app. simpl. lia.
Qed.

(** The frequency of a node of a tree with positive counts is positive and
    at most the frequency of the root. *)
Lemma postorder_frequency t n :
  Forall (λ it, 0 < it.2) (leaves t) → n ∈ postorder t →
  1 ≤ frequency n ≤ weight t.
Proof.
  induction t as [c f|l IHl r IHr].
  - intros Hf%Forall_inv ->%list_elem_of_singleton. simpl in *. lia.
  - rewrite leaves_inner. intros [Hl Hr]%Forall_app. cbn [postorder].
    pose proof (weight_pos l Hl). pose proof (weight_pos r Hr).
    rewrite !elem_of_app, list_elem_of_singleton.
    intros [Hn|[Hn| ->]]; cbn [weight].
    + specialize (IHl Hl Hn). lia.
    + specialize (IHr Hr Hn). lia.
    + simpl. lia.
Qed.

(** X20. After construction from a file with at least one and at most
    [Int.max] characters the queue holds one node, the root of a tree:
    every inner node has two children, the marker character and the sum of
    the frequencies of its children as frequency, and the leaves are the
    entries of the frequency table, each one once. The frequency of every
    node is from 1 to [Int.max], so that none of the sums went beyond the
    range of [int]; the frequency of the root is the sum of the counts. *)
Theorem tree_leaves `{HeapAlgorithms} (file : option string) :
  frequencies (construct file) ≠ ∅ → file_size file ≤ Int.max →
  ∃ T, node_queue (construct file) = [to_node T] ∧
       leaves T ≡ₚ map_items (frequencies (construct file)) ∧
       frequency (to_node T) = sum_with snd (map_items (frequencies (construct file))) ∧
       Forall (λ n, 1 ≤ frequency n ≤ Int.max) (postorder T).
Proof.
  unfold construct. rewrite build_frequencies. set (m := read_file file ∅).
  intros Hne Hsize.
  destruct (build_spec m) as (T & Hm & Hq & _); [apply read_file_positive| |].
  { by intros ?%map_size_empty_inv. }
  pose proof (merge_leaves m T Hm) as Hleaves.
  assert (weight T = sum_with snd (map_items m)) as Hweight.
  { by rewrite <- leaf_forest_weight, <- (huffman_merge_weight _ _ Hm). }
  exists T. split_and!; [done..| |].
  - by rewrite frequency_to_node.
  - apply Forall_forall. intros n Hn.
    apply postorder_frequency in Hn.
    + rewrite Hweight in Hn. unfold m in Hn. rewrite read_file_sum in Hn. lia.
    + rewrite Hleaves. apply Forall_forall.
      intros [c k] Hc%elem_of_map_items. by apply (read_file_positive file c).
Qed.

(** X21. The second loop of the constructor makes N - 1 turns for a table
    of N characters (none for an empty table): the queue it leaves is the
    queue of the leaves after N - 1 times taking two nodes and putting
    their parent. *)
Theorem merge_loop_turns `{HeapAlgorithms} (file : option string) :
  node_queue (construct file) =
    Nat.iter (size (frequencies (construct file)) - 1) merge_step
      (push_leaves (frequencies (construct file)) []).
Proof.
  unfold construct. rewrite build_frequencies. set (m := read_file file ∅).
  destruct (push_leaves_spec m (read_file_positive file)) as [Hheap Hperm].
  assert (pq_size (push_leaves m []) = size m) as Hlen.
  { unfold pq_size. by rewrite Hperm, length_fmap, length_map_items. }
  rewrite <- Hlen. by rewrite <- (merge_loop_iter (pq_size (push_leaves m []))) by done.
Qed.

(** ** The destructor *)

Lemma delete_tree_postorder t deleted :
  delete_tree (to_node t) deleted = deleted ++ postorder t.
Proof.
  revert deleted. induction t as [c f|l IHl r IHr]; intros deleted; [done|].
  cbn [to_node delete_tree postorder]. rewrite IHl, IHr. by rewrite <- !app_assoc.
Qed.

Lemma length_postorder t : length (postorder t) = (2 * length (coded t) - 1)%nat.
Proof.
  induction t as [c f|l IHl r IHr]; [done|]. cbn [postorder coded].
  rewrite !length_app, !length_fmap, IHl, IHr. simpl.
  pose proof (length_coded_pos l). pose proof (length_coded_pos r). lia.
Qed.

Lemma is_heap_singleton x : is_heap [x].
Proof. intros i p c Hi _ Hc. destruct i; [lia|done]. Qed.

(** X22. The destructor of an object built from a file with at least one
    character takes the root from the queue, which is empty afterwards, and
    deletes every node of the tree once, children before their parent: N
    leaves and N - 1 inner nodes. *)
Theorem destroy_tree `{HeapAlgorithms} (file : option string) :
  frequencies (construct file) ≠ ∅ →
  ∃ T, node_queue (construct file) = [to_node T] ∧
       destroy (construct file) = ([], postorder T) ∧
       length (postorder T) = (2 * size (frequencies (construct file)) - 1)%nat.
Proof.
  unfold construct. rewrite build_frequencies. set (m := read_file file ∅). intros Hne.
  destruct (build_spec m) as (T & Hm & Hq & _); [apply read_file_positive| |].
  { by intros ?%map_size_empty_inv. }
  exists T. split_and!; [done| |].
  - unfold destroy, pq_empty. rewrite Hq, bool_decide_eq_false_2 by done.
    cbn [negb pq_top head].
    rewrite delete_tree_postorder. f_equal.
    destruct (pq_pop_spec (to_node T) [] (is_heap_singleton _)) as [_ Hp].
    by apply Permutation_nil_r in Hp.
  - by rewrite length_postorder, (length_coded m T Hm).
Qed.

(** ** [encode_characters] on any node structure *)

Lemma prefix_refl s : String.prefix s s = true.
Proof. induction s as [|a s IH]; simpl; [done|]. by destruct (ascii_dec a a). Qed.

Lemma prefix_append_l s x s' :
  String.prefix (s +:+ x) s' = true → String.prefix s s' = true.
Proof.
  revert s'. induction s as [|a s IH]; intros [|b s']; simpl; [done..|].
  destruct (ascii_dec a b); [apply IH|done].
Qed.

Lemma encode_characters_keeps k node code m c s :
  (height node ≤ k)%nat → m !! c = Some s →
  encode_characters code node m !! c = Some s.
Proof.
  revert node code m. induction k as [|k IH]; intros [ch f right left] code m Hk Hs.
  { simpl in Hk. lia. }
  cbn [height] in Hk. cbn [encode_characters]. case_bool_decide as Hch.
  - rewrite lookup_emplace. case_decide as Hc; [|done]. subst ch. by rewrite Hs.
  - assert (∀ child code' m',
              child = left ∨ child = right → m' !! c = Some s →
              match child with
              | Some n => encode_characters code' n m'
              | None => m'
              end !! c = Some s) as Hchild.
    { intros [n|] code' m' Hn Hs'; [|done]. apply IH; [|done].
      destruct Hn as [<- | <-]; lia. }
    apply Hchild; [by right|]. apply Hchild; [by left|done].
Qed.

Lemma encode_characters_entries k node code m c s :
  (height node ≤ k)%nat →
  encode_characters code node m !! c = Some s →
  m !! c = Some s ∨
  (m !! c = None ∧ Char.to_Z c >= 0 ∧ String.prefix code s = true).
Proof.
  revert node code m. induction k as [|k IH]; intros [ch f right left] code m Hk.
  { simpl in Hk. lia. }
  cbn [height] in Hk. cbn [encode_characters]. case_bool_decide as Hch.
  - rewrite lookup_emplace. case_decide as Hc.
    + subst ch. destruct (m !! c) as [s'|]; simpl; intros [= <-]; [by left|].
      right. split_and!; [done..|]. apply prefix_refl.
    + by left.
  - assert (∀ child code' m',
              child = left ∨ child = right →
              match child with
              | Some n => encode_characters code' n m'
              | None => m'
              end !! c = Some s →
              m' !! c = Some s ∨
              (m' !! c = None ∧ Char.to_Z c >= 0 ∧ String.prefix code' s = true))
      as Hchild.
    { intros [n|] code' m' Hn; [|by left]. apply IH.
      destruct Hn as [<- | <-]; lia. }
    intros [Hs|(Hnone & Hc & Hp)]%Hchild; [|right|by right].
    + apply Hchild in Hs as [Hs|(Hnone & Hc & Hp)]; [by left| |by left].
      right. split_and!; [done..|]. by apply prefix_append_l in Hp.
    + apply prefix_append_l in Hp. split_and!; [|done..].
      destruct (m !! c) as [s'|] eqn:Em; [|done].
      destruct left as [l|]; [|congruence].
      rewrite (encode_characters_keeps (height l) l _ m c s') in Hnone by done.
      done.
Qed.

(** X23. [encode_characters] only adds to the table, whatever the node
    structure: an entry that is there stays as it is, and a new entry is
    for a character from 0 to 127 and has a code that begins with the code
    the call was given. *)
Theorem encode_characters_table (node : Node) (code : string)
    (m : gmap ascii string) :
  (∀ c s, m !! c = Some s → encode_characters code node m !! c = Some s)
  ∧ (∀ c s, encode_characters code node m !! c = Some s →
       m !! c = Some s ∨
       (m !! c = None ∧ Char.to_Z c >= 0 ∧ String.prefix code s = true)).
Proof.
  split; intros c s.
  - by apply (encode_characters_keeps (height node)).
  - by apply (encode_characters_entries (height node)).
Qed.

(** ** [decode] ends *)

(** X24. [decode] returns on every input: when the table has two or more
    symbols each turn of the outer loop reads at least one character, so
    the loop ends after at most as many turns as the input has
    characters. *)
Theorem decode_terminates `{HeapAlgorithms} (file : option string) (s : string) :
  ∃ text, decode (construct file) s = Some text ∧
          ∀ fuel, (String.length s ≤ fuel)%nat →
                  (1 < size (frequencies (construct file)))%nat →
                  decode_loop fuel (head (node_queue (construct file))) s "" = Some text.
Proof.
  destruct (decode_total file s) as [text Htext]. exists text. split; [done|].
  intros fuel Hfuel Hsize. unfold decode in Htext.
  rewrite bool_decide_eq_true_2 in Htext by done.
  by apply (decode_loop_mono (String.length s)).
Qed.

(** ** The further properties at work *)

(** As before, the examples run the code with the library that keeps the
    vector sorted. *)

Lemma root_frequency_witness :
  "abbcccc" ≠ "" ∧ Z.of_nat (String.length "abbcccc") ≤ Int.max
  ∧ ∃ root, node_queue (construct (Some "abbcccc")) = [root]
            ∧ frequency root = Z.of_nat (String.length "abbcccc")
            ∧ 1 ≤ frequency root ≤ Int.max.
Proof.
  assert (Z.of_nat (String.length "abbcccc") ≤ Int.max) as Hsize by (by vm_compute).
  split_and!; [done..|]. by apply (root_frequency "abbcccc").
Defined.

Lemma read_file_total_witness :
  Z.of_nat (String.length "abbcccc") ≤ Int.max
  ∧ sum_with snd (map_items (read_file (Some "abbcccc") ∅)) = 7
  ∧ Forall (λ it, 1 ≤ it.2 ≤ Int.max) (map_items (read_file (Some "abbcccc") ∅)).
Proof.
  assert (Z.of_nat (String.length "abbcccc") ≤ Int.max) as Hsize by (by vm_compute).
  split; [done|]. by apply (read_file_total "abbcccc").
Defined.

Lemma code_table_domain_witness :
  let m := read_file (Some "abbcccc") ∅ in
  positive_counts m
  ∧ (is_Some (encoded_chars (build m) !! "a"%char) ↔
       is_Some (m !! "a"%char) ∧ (size m = 1%nat ∨ Char.to_Z "a" >= 0)).
Proof.
  intros m. split; [apply read_file_positive|].
  apply (code_table_domain m "a"), read_file_positive.
Defined.

Lemma get_character_code_occurs_witness :
  Char.to_Z "a" >= 0
  ∧ (get_character_code (construct (Some "abbcccc")) "a" ≠ "" ↔
       0 < occurrences "a" "abbcccc").
Proof.
  assert (Char.to_Z "a" >= 0) as Ha by (by vm_compute).
  split; [done|]. by apply (get_character_code_occurs "abbcccc" "a").
Defined.

Lemma encode_unknown_symbol_witness :
  occurrences "d" "abbcccc" = 0 ∧ 0 < occurrences "d" "cad"
  ∧ encode (construct (Some "abbcccc")) (Some "cad") = "".
Proof.
  split_and!; [done..|]. by apply (encode_unknown_symbol "abbcccc" "cad" "d").
Defined.

Lemma encode_negative_character_witness :
  let text := String Char.no_character "a" in
  0 < occurrences Char.no_character text ∧ Char.to_Z Char.no_character < 0
  ∧ 0 < occurrences "a" text ∧ Char.no_character ≠ "a"%char
  ∧ encode (construct (Some text)) (Some text) = "".
Proof.
  intros text. split_and!; [done..|].
  by apply (encode_negative_character text Char.no_character "a").
Defined.

Lemma encode_length_witness :
  let t := construct (Some "abbcccc") in
  all_coded t "cab" = true
  ∧ Z.of_nat (String.length (encode t (Some "cab")))
    = expected_length (read_file (Some "cab") ∅) (get_character_code t).
Proof.
  intros t. assert (all_coded t "cab" = true) as Htext by (by vm_compute).
  split; [done|]. by apply (encode_length t "cab").
Defined.

Lemma decode_encode_source_witness :
  ascii_text "abbcccc" = true
  ∧ decode (construct (Some "abbcccc"))
      (encode (construct (Some "abbcccc")) (Some "abbcccc")) = Some "abbcccc".
Proof. split; [done|]. by apply (decode_encode_source "abbcccc"). Defined.

Lemma encode_injective_witness :
  let t := construct (Some "abbcccc") in
  all_coded t "cab" = true
  ∧ encode t (Some "cab") = encode t (Some "cab")
  ∧ "cab" = "cab".
Proof.
  intros t. assert (all_coded t "cab" = true) as Htext by (by vm_compute).
  split_and!; [done..|]. by apply (encode_injective (Some "abbcccc") "cab" "cab").
Defined.

Lemma encode_decode_witness :
  let t := construct (Some "abbcccc") in
  decode t "10001" = Some "cab" ∧ "cab" ≠ "" ∧ ascii_text "cab" = true
  ∧ encode t (Some "cab") = "10001".
Proof.
  intros t. assert (decode t "10001" = Some "cab") as Hdec by (by vm_compute).
  split_and!; [done..|]. by apply (encode_decode (Some "abbcccc") "10001" "cab").
Defined.

Lemma decode_one_symbol_witness :
  let t := construct (Some "aaa") in
  size (frequencies t) = 1%nat ∧ is_Some (frequencies t !! "a"%char)
  ∧ decode t "00" = Some "aa".
Proof.
  intros t.
  assert (size (frequencies t) = 1%nat) as Hone by (by vm_compute).
  assert (is_Some (frequencies t !! "a"%char)) as Ha by (by exists 3).
  split_and!; [done..|]. by apply (decode_one_symbol (Some "aaa") "a" "00").
Defined.

Lemma decode_length_witness :
  decode (construct (Some "abbcccc")) "10001" = Some "cab"
  ∧ (String.length "cab" ≤ String.length "10001")%nat.
Proof.
  assert (decode (construct (Some "abbcccc")) "10001" = Some "cab") as Hdec
    by (by vm_compute).
  split; [done|]. by apply (decode_length (Some "abbcccc") "10001" "cab").
Defined.

Lemma decode_empty_iff_witness :
  ascii_text "abbcccc" = true
  ∧ (1 < size (frequencies (construct (Some "abbcccc"))))%nat
  ∧ (decode (construct (Some "abbcccc")) "10001" = Some "" ↔
       "10001" = "" ∨ binary "10001" = false).
Proof.
  assert (1 < size (frequencies (construct (Some "abbcccc"))))%nat as Hsize
    by (vm_compute; lia).
  split_and!; [done..|]. by apply (decode_empty_iff "abbcccc" "10001").
Defined.

Lemma encode_append_witness :
  let t := construct (Some "abbcccc") in
  all_coded t "ca" = true ∧ all_coded t "b" = true
  ∧ encode t (Some ("ca" +:+ "b")) = encode t (Some "ca") +:+ encode t (Some "b").
Proof.
  intros t.
  assert (all_coded t "ca" = true) as H1 by (by vm_compute).
  assert (all_coded t "b" = true) as H2 by (by vm_compute).
  split_and!; [done..|]. by apply (encode_append t "ca" "b").
Defined.

Lemma construct_empty_witness :
  (@None string = None ∨ @None string = Some "")
  ∧ let t := construct None in
    encoded_chars t = ∅ ∧ node_queue t = [] ∧
    (∀ c, get_character_code t c = "") ∧
    (∀ source, encode t source = "") ∧
    (∀ s, decode t s = Some "") ∧
    destroy t = ([], []).
Proof. split; [by left|]. apply (construct_empty None). by left. Defined.

Lemma code_length_bound_witness :
  let t := construct (Some "abbcccc") in
  encoded_chars t !! "a"%char = Some "00"
  ∧ (1 ≤ String.length "00" ≤ Nat.max 1 (size (frequencies t) - 1))%nat.
Proof.
  intros t. assert (encoded_chars t !! "a"%char = Some "00") as Ha by (by vm_compute).
  split; [done|]. by apply (code_length_bound (Some "abbcccc") "a" "00").
Defined.

Lemma encode_size_bounds_witness :
  let t := construct (Some "abbcccc") in
  all_coded t "cab" = true
  ∧ (String.length "cab" ≤ String.length (encode t (Some "cab"))
       ≤ Nat.max 1 (size (frequencies t) - 1) * String.length "cab")%nat.
Proof.
  intros t. assert (all_coded t "cab" = true) as Htext by (by vm_compute).
  split; [done|]. by apply (encode_size_bounds (Some "abbcccc") "cab").
Defined.

Lemma code_length_monotone_witness :
  let t := construct (Some "abbcccc") in
  encoded_chars t !! "a"%char = Some "00" ∧ encoded_chars t !! "c"%char = Some "1"
  ∧ occurrences "a" "abbcccc" < occurrences "c" "abbcccc"
  ∧ (String.length "1" ≤ String.length "00")%nat.
Proof.
  intros t.
  assert (encoded_chars t !! "a"%char = Some "00") as Ha by (by vm_compute).
  assert (encoded_chars t !! "c"%char = Some "1") as Hc by (by vm_compute).
  split_and!; [done..|].
  by apply (code_length_monotone "abbcccc" "a" "c" "00" "1").
Defined.

Lemma tree_leaves_witness :
  let t := construct (Some "abbcccc") in
  frequencies t ≠ ∅ ∧ file_size (Some "abbcccc") ≤ Int.max
  ∧ ∃ T, node_queue t = [to_node T] ∧ leaves T ≡ₚ map_items (frequencies t)
         ∧ frequency (to_node T) = sum_with snd (map_items (frequencies t))
         ∧ Forall (λ n, 1 ≤ frequency n ≤ Int.max) (postorder T).
Proof.
  intros t. assert (frequencies t ≠ ∅) as Hne.
  { intros Heq%(f_equal size). by vm_compute in Heq. }
  assert (file_size (Some "abbcccc") ≤ Int.max) as Hsize by (by vm_compute).
  split_and!; [done..|]. by apply (tree_leaves (Some "abbcccc")).
Defined.

Lemma destroy_tree_witness :
  let t := construct (Some "abbcccc") in
  frequencies t ≠ ∅
  ∧ ∃ T, node_queue t = [to_node T] ∧ destroy t = ([], postorder T)
         ∧ length (postorder T) = (2 * size (frequencies t) - 1)%nat.
Proof.
  intros t. assert (frequencies t ≠ ∅) as Hne.
  { intros Heq%(f_equal size). by vm_compute in Heq. }
  split; [done|]. by apply (destroy_tree (Some "abbcccc")).
Defined.
